(** * Cover-letter generator: emphasis pass, prompt and document assembly

    A shallow embedding of [app.py].  Python [str] values are lists of
    characters; the development covers ASCII text, on which [str.lower],
    [str.upper] and [re.IGNORECASE] act on the letters A-Z / a-z only.
    Code that can raise returns [option]: [None] stands for a raised
    exception. *)

From Stdlib Require Import List Ascii String Bool Arith Lia.
Import ListNotations.

(** ** Python strings *)

Definition str := list ascii.

Notation "$ s" := (list_ascii_of_string s%string)
  (at level 1, s at level 0, only parsing).

Definition nl : ascii := "010"%char.
Definition backslash : ascii := "\"%char.

Definition in_range (lo hi : nat) (c : ascii) : bool :=
  (lo <=? nat_of_ascii c) && (nat_of_ascii c <=? hi).

Definition is_upper (c : ascii) : bool := in_range 65 90 c.
Definition is_lower (c : ascii) : bool := in_range 97 122 c.
Definition is_digit (c : ascii) : bool := in_range 48 57 c.
Definition is_octdigit (c : ascii) : bool := in_range 48 55 c.
Definition is_ascii_letter (c : ascii) : bool := is_upper c || is_lower c.

Definition lower_char (c : ascii) : ascii :=
  if is_upper c then ascii_of_nat (nat_of_ascii c + 32) else c.

Definition upper_char (c : ascii) : ascii :=
  if is_lower c then ascii_of_nat (nat_of_ascii c - 32) else c.

(** [s.lower()] and [s.upper()] *)
Definition lower (s : str) : str := map lower_char s.
Definition upper (s : str) : str := map upper_char s.

(** [s.startswith(p)] *)
Fixpoint is_prefix (p s : str) : bool :=
  match p, s with
  | [], _ => true
  | _ :: _, [] => false
  | a :: p', b :: s' => Ascii.eqb a b && is_prefix p' s'
  end.

(** [needle in hay] *)
Fixpoint contains (needle hay : str) : bool :=
  is_prefix needle hay ||
  match hay with
  | [] => false
  | _ :: t => contains needle t
  end.

(** [text.split("\n\n")]: leftmost, non-overlapping separators; the result
    is never empty. *)
Fixpoint split_nn (s : str) : list str :=
  match s with
  | [] => [[]]
  | c :: t =>
      let keep := match split_nn t with
                  | p :: ps => (c :: p) :: ps
                  | [] => [[c]]
                  end in
      match t with
      | d :: r => if Ascii.eqb c nl && Ascii.eqb d nl
                  then [] :: split_nn r
                  else keep
      | [] => keep
      end
  end.

(** ["\n\n".join(parts)] *)
Fixpoint join_nn (parts : list str) : str :=
  match parts with
  | [] => []
  | [p] => p
  | p :: ps => p ++ nl :: nl :: join_nn ps
  end.

(** Whitespace of [str.strip()] on ASCII text *)
Definition is_space (c : ascii) : bool :=
  in_range 9 13 c || in_range 28 32 c.

Fixpoint lstrip (s : str) : str :=
  match s with
  | c :: t => if is_space c then lstrip t else s
  | [] => []
  end.

Definition rstrip (s : str) : str := rev (lstrip (rev s)).

(** [s.strip()] *)
Definition strip (s : str) : str := rstrip (lstrip s).

(** ** The [re] module, as far as [app.py] uses it

    Every call has the shape
    [re.sub(re.escape(needle), repl, text, flags=re.IGNORECASE)]:
    the pattern is a literal, matched without regard to letter case, and
    [repl] is a replacement template that [re] parses for backslash
    escapes before it searches. *)

Module Re.

(** A parsed replacement template: literal characters and references to
    group 0, the whole match.  An escaped pattern has no other group. *)
Inductive titem : Type :=
| TLit (c : ascii)
| TGroup0.

Definition octval (c : ascii) : nat := nat_of_ascii c - 48.

(** The one-letter escapes of a template: [\a \b \f \n \r \t \v \\]. *)
Definition simple_escape (c : ascii) : option ascii :=
  if Ascii.eqb c "a" then Some (ascii_of_nat 7)
  else if Ascii.eqb c "b" then Some (ascii_of_nat 8)
  else if Ascii.eqb c "f" then Some (ascii_of_nat 12)
  else if Ascii.eqb c "n" then Some (ascii_of_nat 10)
  else if Ascii.eqb c "r" then Some (ascii_of_nat 13)
  else if Ascii.eqb c "t" then Some (ascii_of_nat 9)
  else if Ascii.eqb c "v" then Some (ascii_of_nat 11)
  else if Ascii.eqb c backslash then Some backslash
  else None.

(** The name of [\g<name>]: the characters up to the closing [>]. *)
Fixpoint get_until_gt (s : str) : option str :=
  match s with
  | [] => None
  | c :: t => if Ascii.eqb c ">" then Some []
              else option_map (cons c) (get_until_gt t)
  end.

(** [escape_at t] decodes the escape whose backslash is followed by [t].
    It gives the template items and the number of characters of [t] the
    escape uses, or [None] where [re] raises ([bad escape], [invalid group
    reference], [missing <], [unknown group name], ...).  With no capture
    group in the pattern, a group reference is accepted for group 0 only;
    the name of [\g<name>] is read as CPython 3.12 reads it, a numeric name
    being a run of ASCII digits. *)
Definition escape_at (t : str) : option (list titem * nat) :=
  match t with
  | [] => None
  | c :: r =>
      if Ascii.eqb c "g" then
        match r with
        | lt :: r' =>
            if Ascii.eqb lt "<" then
              match get_until_gt r' with
              | Some (d :: ds) =>
                  if forallb (Ascii.eqb "0") (d :: ds)
                  then Some ([TGroup0], 3 + List.length (d :: ds))
                  else None
              | _ => None
              end
            else None
        | [] => None
        end
      else if Ascii.eqb c "0" then
        match r with
        | d1 :: d2 :: _ =>
            if is_octdigit d1 then
              if is_octdigit d2
              then Some ([TLit (ascii_of_nat (octval d1 * 8 + octval d2))], 3)
              else Some ([TLit (ascii_of_nat (octval d1))], 2)
            else Some ([TLit zero], 1)
        | [d1] =>
            if is_octdigit d1
            then Some ([TLit (ascii_of_nat (octval d1))], 2)
            else Some ([TLit zero], 1)
        | [] => Some ([TLit zero], 1)
        end
      else if is_digit c then
        match r with
        | d2 :: d3 :: _ =>
            if is_digit d2 && is_octdigit c && is_octdigit d2 && is_octdigit d3
            then
              let v := octval c * 64 + octval d2 * 8 + octval d3 in
              if v <=? 255 then Some ([TLit (ascii_of_nat v)], 3) else None
            else None
        | _ => None
        end
      else
        match simple_escape c with
        | Some e => Some ([TLit e], 1)
        | None =>
            if is_ascii_letter c then None
            else Some ([TLit backslash; TLit c], 1)
        end
  end.

(** [parse_template]: [skip] counts the characters still belonging to the
    escape just decoded. *)
Fixpoint parse_go (skip : nat) (s : str) : option (list titem) :=
  match s with
  | [] => Some []
  | c :: t =>
      match skip with
      | S k => parse_go k t
      | O =>
          if Ascii.eqb c backslash then
            match escape_at t with
            | Some (items, used) => option_map (app items) (parse_go used t)
            | None => None
            end
          else option_map (cons (TLit c)) (parse_go 0 t)
      end
  end.

Definition parse_template (repl : str) : option (list titem) :=
  parse_go 0 repl.

(** The replacement text for the matched span [m]. *)
Definition expand (tpl : list titem) (m : str) : str :=
  flat_map (fun it => match it with TLit c => [c] | TGroup0 => m end) tpl.

(** A literal pattern under [re.IGNORECASE] matches at the start of [s]. *)
Fixpoint match_at (needle s : str) : bool :=
  match needle, s with
  | [], _ => true
  | _ :: _, [] => false
  | a :: p, b :: t => Ascii.eqb (lower_char a) (lower_char b) && match_at p t
  end.

(** The scan of [re.sub]: leftmost matches, not overlapping, all of them
    replaced ([count] is left at 0).  [skip] counts the characters of the
    current match still to be passed over.  An empty pattern matches before
    every character and at the end. *)
Fixpoint sub_go (needle : str) (tpl : list titem) (skip : nat) (s : str)
  : str :=
  match s with
  | [] =>
      match skip, needle with
      | O, [] => expand tpl []
      | _, _ => []
      end
  | c :: t =>
      match skip with
      | S k => sub_go needle tpl k t
      | O =>
          if match_at needle s then
            expand tpl (firstn (List.length needle) s) ++
            match needle with
            | [] => c :: sub_go needle tpl 0 t
            | _ :: n' => sub_go needle tpl (List.length n') t
            end
          else c :: sub_go needle tpl 0 t
      end
  end.

(** [re.sub(re.escape(needle), repl, s, flags=re.IGNORECASE)] *)
Definition sub (needle repl s : str) : option str :=
  match parse_template repl with
  | Some tpl => Some (sub_go needle tpl 0 s)
  | None => None
  end.

End Re.

(** ** The keyword configuration *)

Definition KEYWORDS : list (str * list str) :=
  [ ($"core_finance",
      [ $"financial reporting";
        $"month-end closure";
        $"reconciliations";
        $"accounting controls";
        $"financial governance";
        $"data accuracy";
        $"compliance" ]);
    ($"operations",
      [ $"Procure-to-Pay";
        $"Record-to-Report";
        $"transaction flows";
        $"process efficiency";
        $"systems exposure" ]);
    ($"analysis",
      [ $"MIS";
        $"variance analysis";
        $"financial analysis";
        $"decision support" ]) ].

(** ** [apply_programmatic_bolding] *)

(** [f"<b>{x}</b>"] *)
Definition bold (x : str) : str := $"<b>" ++ x ++ $"</b>".

(** [needle.lower() in text.lower()] *)
Definition occurs_in (text needle : str) : bool :=
  contains (lower needle) (lower text).

(** The collection loop over [KEYWORDS.values()]. *)
Definition candidates (bolded : str) : list str :=
  flat_map (fun group => filter (occurs_in bolded) (snd group)) KEYWORDS.

(** The loop over [candidates[:3]]. *)
Fixpoint bold_each (kws : list str) (bolded : str) : option str :=
  match kws with
  | [] => Some bolded
  | kw :: rest =>
      match Re.sub kw (bold kw) bolded with
      | Some b => bold_each rest b
      | None => None
      end
  end.

Definition bold_keywords (bolded : str) : option str :=
  bold_each (firstn 3 (candidates bolded)) bolded.

(** The company step of one iteration: the flag and the paragraph after it. *)
Definition bold_company (company_name : str) (used_company : bool)
  (para : str) : option (bool * str) :=
  if negb used_company && occurs_in para company_name then
    match Re.sub company_name (bold company_name) para with
    | Some b => Some (true, b)
    | None => None
    end
  else Some (used_company, para).

(** One iteration of the loop over the paragraphs. *)
Definition bold_paragraph (company_name : str) (used_company : bool)
  (para : str) : option (bool * str) :=
  match bold_company company_name used_company para with
  | Some (used, bolded) =>
      match bold_keywords bolded with
      | Some b => Some (used, b)
      | None => None
      end
  | None => None
  end.

(** The loop: [used_company] is threaded through, [result] collects. *)
Fixpoint bold_paragraphs (company_name : str) (used_company : bool)
  (paragraphs : list str) : option (list str) :=
  match paragraphs with
  | [] => Some []
  | para :: rest =>
      match bold_paragraph company_name used_company para with
      | Some (used, b) =>
          option_map (cons b) (bold_paragraphs company_name used rest)
      | None => None
      end
  end.

Definition apply_programmatic_bolding (text company_name : str)
  : option str :=
  option_map join_nn (bold_paragraphs company_name false (split_nn text)).


(** ** [extract_text] *)

(** An opened PDF, as [pdfplumber] presents it: its pages, each with what
    [page.extract_text()] returns ([None] or a string). *)
Definition pdf := list (option str).

Definition extract_text (pdf_file : pdf) : str :=
  strip
    (fold_left
       (fun text page =>
          match page with
          | Some (c :: page_text) => text ++ (c :: page_text) ++ [nl]
          | _ => text
          end)
       pdf_file []).

(** ** [generate_cover_letter] *)

Inductive Tone : Type :=
| StartupGrowth
| CorporateListed
| ProfessionalFirm.

(** The options of the [Company Tone] select box. *)
Definition tone_label (t : Tone) : str :=
  match t with
  | StartupGrowth => $"Startup / Growth"
  | CorporateListed => $"Corporate / Listed"
  | ProfessionalFirm => $"Professional Firm"
  end.

(** The [data] dictionary. *)
Record Data : Type := mkData {
  name : str;
  company : str;
  role : str;
  email : str;
  mobile : str;
  linkedin : str
}.

Definition prompt_rules : str := $"
You are a senior hiring manager and expert cover-letter writer.

CRITICAL TRUTH RULE (NON-NEGOTIABLE):
- Do NOT invent experience.
- Do NOT claim leadership or implementation unless clearly supported by resume.
- If JD skills are not directly present in resume:
  - Use derived learning from audit, reconciliations, controls, systems exposure
  - Or frame as readiness / strong foundation
- Selling is required, exaggeration is forbidden.

STRUCTURE & LENGTH:
- STRICT one A4 page
- EXACTLY 5 paragraphs
- Each paragraph ~5 lines
- No fluff, no generic phrases

PARAGRAPH ROLES:
1. Why this role at this company (contextual, specific)
2. Core CA foundation and accounting credibility (resume-backed)
3. Operational / role alignment using direct or derived experience
4. Governance, controls, cross-functional maturity
5. Forward-looking close with ownership tone

TONE:
Company type is: ".

Definition prompt_candidate : str := $"
Adapt language accordingly (do not mention tone explicitly).

CANDIDATE:
Name: ".

Definition prompt_company : str := $"
Company: ".

Definition prompt_role : str := $"
Role: ".

Definition prompt_resume : str := $"

RESUME (ONLY SOURCE OF FACTUAL EXPERIENCE):
".

Definition prompt_jd : str := $"

JOB DESCRIPTION:
".

Definition prompt_output : str := $"

OUTPUT:
Only the 5 body paragraphs.
No date. No salutation. No signature.
".

(** [{jd_text if jd_text else "Not provided"}] *)
Definition jd_section (jd_text : str) : str :=
  match jd_text with
  | [] => $"Not provided"
  | _ :: _ => jd_text
  end.

(** The f-string [prompt]. *)
Definition build_prompt (resume_text jd_text : str) (data : Data)
  (tone : str) : str :=
  prompt_rules ++ tone ++
  prompt_candidate ++ name data ++
  prompt_company ++ company data ++
  prompt_role ++ role data ++
  prompt_resume ++ resume_text ++
  prompt_jd ++ jd_section jd_text ++
  prompt_output.

(** What the script does to the outside, in order. *)
Inductive Event : Type :=
| StError (message : str)
| ChatCompletion (prompt : str).

(** [client] is the chat-completion call: the content of the first choice,
    or [None] when the call raises. *)
Definition generate_cover_letter (client : str -> option str)
  (resume_text jd_text : str) (data : Data) (tone : str)
  : list Event * option str :=
  let prompt := build_prompt resume_text jd_text data tone in
  ([ChatCompletion prompt], option_map strip (client prompt)).

(** ** [create_pdf] *)

(** The two [ParagraphStyle] objects: [Body] (justified, space after) and
    [Header] (left-aligned); both Times-Roman 11.4 on 14.8. *)
Inductive Style : Type :=
| Body
| Header.

(** [Paragraph(text, style)] *)
Record Paragraph : Type := mkParagraph {
  p_text : str;
  p_style : Style
}.

Definition br : str := $"<br/>".

Definition header_text (today : str) (data : Data) : str :=
  $"<b>" ++ upper (name data) ++ $"</b><br/>" ++
  $"Date: " ++ today ++ $"<br/><br/>" ++
  $"Dear Hiring Manager,<br/><br/>".

Definition closing_text (data : Data) : str :=
  $"
Sincerely,<br/><br/>
" ++ name data ++ $"<br/>
" ++ mobile data ++ $"<br/>
" ++ email data ++ $"<br/>
" ++ linkedin data ++ $"
".

(** The list [elements] handed to [doc.build]; [today] is the formatted
    current date. *)
Definition create_pdf (today text : str) (data : Data) : list Paragraph :=
  [mkParagraph (header_text today data) Header] ++
  map (fun para => mkParagraph para Body) (split_nn text) ++
  [mkParagraph (closing_text data) Header].

(** ** The Streamlit script *)

(** The widgets read on a run of the script. *)
Record Form : Type := mkForm {
  f_resume : option pdf;
  f_jd : option pdf;
  f_name : str;
  f_company : str;
  f_role : str;
  f_tone : Tone;
  f_email : str;
  f_mobile : str;
  f_linkedin : str
}.

(** The two keys of [st.session_state]. *)
Record Session : Type := mkSession {
  s_draft : option str;
  s_data : option Data
}.

Inductive Status : Type :=
| Stopped      (* [st.stop()] *)
| Raised       (* an exception ended the run *)
| Finished.

Record Run : Type := mkRun {
  events : list Event;
  session : Session;
  status : Status
}.

(** Python truth values: [not x] for an upload and for a string. *)
Definition not_file (x : option pdf) : bool :=
  match x with None => true | Some _ => false end.

Definition not_str (x : str) : bool :=
  match x with [] => true | _ :: _ => false end.

Definition mandatory_message : str :=
  $"Resume, Name, Company, and Role are mandatory.".

(** [extract_text(jd) if jd else ""] *)
Definition jd_text_of (jd : option pdf) : str :=
  match jd with
  | Some doc => extract_text doc
  | None => []
  end.

(** The [if submit:] block. *)
Definition on_submit (client : str -> option str) (f : Form) (s : Session)
  : Run :=
  if not_file (f_resume f) || not_str (f_name f) || not_str (f_company f)
     || not_str (f_role f)
  then mkRun [StError mandatory_message] s Stopped
  else
    match f_resume f with
    | None => mkRun [] s Raised   (* [extract_text(None)]; not reached *)
    | Some resume =>
        let resume_text := extract_text resume in
        let jd_text := jd_text_of (f_jd f) in
        let data := mkData (f_name f) (f_company f) (f_role f)
                           (f_email f) (f_mobile f) (f_linkedin f) in
        let (evs, response) :=
          generate_cover_letter client resume_text jd_text data
            (tone_label (f_tone f)) in
        match response with
        | None => mkRun evs s Raised
        | Some draft =>
            match apply_programmatic_bolding draft (f_company f) with
            | None => mkRun evs s Raised
            | Some bolded =>
                mkRun evs (mkSession (Some bolded) (Some data)) Finished
            end
        end
    end.

(** ** The download *)

(** [s.replace(' ', '_')] *)
Definition replace_spaces (s : str) : str :=
  map (fun c => if Ascii.eqb c " " then "_"%char else c) s.

(** The [file_name] of the download button. *)
Definition file_name (data : Data) : str :=
  replace_spaces (name data) ++ $"_Cover_Letter.pdf".

(** ** Predicates used in the statements *)

Definition no_backslash (s : str) : bool :=
  forallb (fun c => negb (Ascii.eqb c backslash)) s.

Definition all_keywords : list str := flat_map snd KEYWORDS.

(** [candidates[:3]] *)
Definition selected (bolded : str) : list str := firstn 3 (candidates bolded).

(** No match of [needle] starts inside [pre], in the text [pre ++ rest]. *)
Fixpoint no_start (needle pre rest : str) : bool :=
  match pre with
  | [] => true
  | _ :: p => negb (Re.match_at needle (pre ++ rest)) && no_start needle p rest
  end.

(** [replaced needle w s out]: scanning [s] from the left, every match of
    [needle] (letter case ignored, matches not overlapping) is replaced, a
    matched span [m] by [w m], and nothing else is changed. *)
Inductive replaced (needle : str) (w : str -> str) : str -> str -> Prop :=
| replaced_none s :
    occurs_in s needle = false ->
    replaced needle w s s
| replaced_hit pre m post out :
    no_start needle pre (m ++ post) = true ->
    List.length m = List.length needle ->
    lower m = lower needle ->
    replaced needle w post out ->
    replaced needle w (pre ++ m ++ post) (pre ++ w m ++ out).

(** [chain kws s out]: the keywords of [kws] are taken in order, each one
    replaced throughout the text as the previous ones left it. *)
Inductive chain : list str -> str -> str -> Prop :=
| chain_nil s : chain [] s s
| chain_cons kw kws s s' out :
    replaced kw (fun _ => bold kw) s s' ->
    chain kws s' out ->
    chain (kw :: kws) s out.

(** What each iteration of the paragraph loop does. *)
Definition paragraph_step (company para out : str) : Prop :=
  exists used used' bolded,
    bold_company company used para = Some (used', bolded) /\
    selected bolded = firstn 3 (filter (occurs_in bolded) all_keywords) /\
    List.length (selected bolded) <= 3 /\
    chain (selected bolded) bolded out.


(** Lines separated by the line-break tag of the paragraph markup. *)
Fixpoint join_br (lines : list str) : str :=
  match lines with
  | [] => []
  | [l] => l
  | l :: ls => l ++ br ++ join_br ls
  end.

(** The form with another job-description upload. *)
Definition with_jd (f : Form) (jd : option pdf) : Form :=
  mkForm (f_resume f) jd (f_name f) (f_company f) (f_role f) (f_tone f)
         (f_email f) (f_mobile f) (f_linkedin f).

(** ** Further predicates *)

(** The text ends with a line feed. *)
Fixpoint ends_nl (s : str) : bool :=
  match s with
  | [] => false
  | [c] => Ascii.eqb c nl
  | _ :: t => ends_nl t
  end.

(** The shape of what [split("\n\n")] returns: at least one piece, no
    separator inside a piece, and no piece but the last ends with a line
    feed (the separator would have been found one character earlier). *)
Fixpoint paragraphs_ok (ps : list str) : bool :=
  match ps with
  | [] => false
  | [p] => negb (contains [nl; nl] p)
  | p :: rest =>
      negb (contains [nl; nl] p) && negb (ends_nl p) && paragraphs_ok rest
  end.

(** The keyword step alone, on every paragraph of a list. *)
Fixpoint keywords_only (paras : list str) : option (list str) :=
  match paras with
  | [] => Some []
  | p :: rest =>
      match bold_keywords p, keywords_only rest with
      | Some b, Some bs => Some (b :: bs)
      | _, _ => None
      end
  end.

(** A page that adds nothing but whitespace to the extracted text. *)
Definition page_blank (page : option str) : bool :=
  match page with
  | None => true
  | Some t => forallb is_space t
  end.

Definition is_body (p : Paragraph) : bool :=
  match p_style p with Body => true | Header => false end.

(** Every occurrence of [kw] in [s], letter case ignored, is spelled as
    [kw] and stands between an opening and a closing bold marker. *)
Definition all_wrapped (kw s : str) : Prop :=
  forall pre m post,
    s = pre ++ m ++ post -> lower m = lower kw ->
    m = kw /\
    (exists pre', pre = pre' ++ $"<b>") /\
    (exists post', post = $"</b>" ++ post').

(** What one page adds to the text in [extract_text]. *)
Definition page_line (page : option str) : str :=
  match page with
  | Some (c :: t) => (c :: t) ++ [nl]
  | _ => []
  end.

(** The characters of the two markers, [<b>] and [</b>]. *)
Definition tag_char (c : ascii) : bool :=
  Ascii.eqb c "<" || Ascii.eqb c ">" || Ascii.eqb c "/" || Ascii.eqb c "b".

(** No character of [s] is, letter case ignored, a marker character. *)
Definition tagfree (s : str) : bool :=
  forallb (fun c => negb (tag_char c)) (lower s).

(** No phrase of the list occurs, letter case ignored, in a later one. *)
Fixpoint apart (l : list str) : Prop :=
  match l with
  | [] => True
  | x :: r => (forall y, In y r -> occurs_in y x = false) /\ apart r
  end.

(** The characters that only the markers hold: [<], [>] and [/]. *)
Definition marker_char (c : ascii) : bool :=
  Ascii.eqb c "<" || Ascii.eqb c ">" || Ascii.eqb c "/".

(** A needle that cannot match across a marker: not empty, without [<],
    [>] and [/], and not the single letter b. *)
Definition marker_safe (x : str) : bool :=
  forallb (fun c => negb (marker_char c)) x &&
  match x with
  | [] => false
  | [c] => negb (Ascii.eqb (lower_char c) "b")
  | _ :: _ :: _ => true
  end.

(** [re.sub(re.escape(x), w, s, flags=re.IGNORECASE)] for a replacement
    [w] without a backslash: every match of [x] replaced by [w]. *)
Definition wrap_all (x w s : str) : str :=
  Re.sub_go x (map Re.TLit w) 0 s.
Example scenario_acme :
  apply_programmatic_bolding
    ($"We value integrity." ++ [nl; nl] ++
     $"At Acme Corp we do month-end closure and MIS work.")
    $"Acme Corp"
  = Some ($"We value integrity." ++ [nl; nl] ++
     $"At <b>Acme Corp</b> we do <b>month-end closure</b> and <b>MIS</b> work.").
Proof. vm_compute. reflexivity. Qed.

(** ** Strings: case folding, prefixes and substrings *)

Section StringFacts.

Lemma lower_app (a b : str) : lower (a ++ b) = lower a ++ lower b.
Proof. apply map_app. Qed.

Lemma lower_length (s : str) : List.length (lower s) = List.length s.
Proof. apply length_map. Qed.

Lemma lower_char_idem (c : ascii) : lower_char (lower_char c) = lower_char c.
Proof. destruct c as [[] [] [] [] [] [] [] []]; reflexivity. Qed.

Lemma lower_idem (s : str) : lower (lower s) = lower s.
Proof.
  unfold lower. rewrite map_map. apply map_ext. intro c. apply lower_char_idem.
Qed.

Lemma match_at_lower (needle s : str) :
  Re.match_at needle s = is_prefix (lower needle) (lower s).
Proof.
  revert s. induction needle as [|a p IH]; intros [|b t]; simpl; auto.
  now rewrite IH.
Qed.

Lemma is_prefix_app (p s r : str) :
  is_prefix p s = true -> is_prefix p (s ++ r) = true.
Proof.
  revert s. induction p as [|a p IH]; intros [|b s]; simpl; auto; try discriminate.
  intros H. apply andb_true_iff in H as [-> H]. simpl. auto.
Qed.

Lemma is_prefix_self_app (p r : str) : is_prefix p (p ++ r) = true.
Proof.
  induction p as [|a p IH]; simpl; auto.
  now rewrite Ascii.eqb_refl.
Qed.

Lemma is_prefix_split (p s : str) :
  is_prefix p s = true -> s = p ++ skipn (List.length p) s.
Proof.
  revert s. induction p as [|a p IH]; intros [|b s]; simpl; auto; try discriminate.
  intros H. apply andb_true_iff in H as [E H].
  apply Ascii.eqb_eq in E. subst b. f_equal. auto.
Qed.

Lemma contains_app_l (n a b : str) :
  contains n a = true -> contains n (a ++ b) = true.
Proof.
  induction a as [|c a IH]; simpl.
  - rewrite orb_false_r. intros H.
    destruct n; [destruct b; reflexivity | discriminate].
  - intros H. apply orb_true_iff in H as [H|H].
    + change (c :: a ++ b) with ((c :: a) ++ b).
      now rewrite (is_prefix_app _ _ b H).
    + rewrite (IH H). apply orb_true_r.
Qed.

Lemma contains_app_r (n a b : str) :
  contains n b = true -> contains n (a ++ b) = true.
Proof.
  intros H. induction a as [|c a IH]; simpl; auto.
  rewrite IH. apply orb_true_r.
Qed.

Lemma contains_infix (n pre p post : str) :
  contains n p = true -> contains n (pre ++ p ++ post) = true.
Proof.
  intros H. apply contains_app_r, contains_app_l, H.
Qed.

Lemma contains_nil (s : str) : contains [] s = true.
Proof. destruct s; reflexivity. Qed.

Lemma is_prefix_refl (s : str) : is_prefix s s = true.
Proof.
  induction s as [|c s IH]; simpl; [reflexivity|].
  now rewrite Ascii.eqb_refl.
Qed.

Lemma contains_refl (s : str) : contains s s = true.
Proof.
  destruct s as [|c s]; simpl; [reflexivity|].
  now rewrite Ascii.eqb_refl, is_prefix_refl.
Qed.

Lemma occurs_in_span (needle m : str) :
  lower m = lower needle -> occurs_in m needle = true.
Proof. unfold occurs_in. intros ->. apply contains_refl. Qed.

Lemma occurs_in_infix (needle pre p post : str) :
  occurs_in p needle = true -> occurs_in (pre ++ p ++ post) needle = true.
Proof.
  unfold occurs_in. rewrite !lower_app. apply contains_infix.
Qed.

End StringFacts.

(** ** Paragraph splitting *)

Section Paragraphs.

Lemma split_nn_nonempty (s : str) : split_nn s <> [].
Proof.
  destruct s as [|c [|d r]]; simpl; try discriminate.
  - destruct (Ascii.eqb c nl && Ascii.eqb d nl); [discriminate|].
    destruct (match r with [] => _ | _ :: _ => _ end); discriminate.
Qed.

Lemma split_nn_cons (c : ascii) (t : str) :
  split_nn (c :: t) =
  match t with
  | d :: r =>
      if Ascii.eqb c nl && Ascii.eqb d nl then [] :: split_nn r
      else match split_nn t with
           | p :: ps => (c :: p) :: ps
           | [] => [[c]]
           end
  | [] => [[c]]
  end.
Proof. destruct t; reflexivity. Qed.

(** Induction two characters at a time, as [split_nn] consumes its input. *)
Lemma str_ind2 (P : str -> Prop) :
  P [] ->
  (forall c t, P t -> (forall d r, t = d :: r -> P r) -> P (c :: t)) ->
  forall s, P s.
Proof.
  intros H0 Hs s.
  assert (H : P s /\ forall d r, s = d :: r -> P r).
  { induction s as [|c t [IH1 IH2]].
    - split; [exact H0 | discriminate].
    - split.
      + apply Hs; assumption.
      + intros d r E. injection E as -> ->. exact IH1. }
  apply H.
Qed.

(** [join(split(T, sep), sep) == T] *)
Lemma join_split (s : str) : join_nn (split_nn s) = s.
Proof.
  induction s as [|c t IHt IHr] using str_ind2; [reflexivity|].
  rewrite split_nn_cons. destruct t as [|d r]; [reflexivity|].
  destruct (Ascii.eqb c nl && Ascii.eqb d nl) eqn:E.
  - apply andb_true_iff in E as [E1 E2].
    apply Ascii.eqb_eq in E1, E2. subst c d.
    specialize (IHr _ _ eq_refl).
    pose proof (split_nn_nonempty r) as Hne.
    destruct (split_nn r) as [|p ps] eqn:Er; [contradiction|].
    simpl. simpl in IHr. now rewrite IHr.
  - pose proof (split_nn_nonempty (d :: r)) as Hne.
    destruct (split_nn (d :: r)) as [|p ps] eqn:Er; [contradiction|].
    rewrite <- IHt. destruct ps; reflexivity.
Qed.

(** Every paragraph is a contiguous piece of the text. *)
Lemma split_nn_infix (s p : str) :
  In p (split_nn s) -> exists pre post, s = pre ++ p ++ post.
Proof.
  revert p. induction s as [|c t IHt IHr] using str_ind2; intros p Hin.
  - destruct Hin as [<-|[]]. now exists [], [].
  - rewrite split_nn_cons in Hin. destruct t as [|d r].
    + destruct Hin as [<-|[]]. now exists [], [].
    + destruct (Ascii.eqb c nl && Ascii.eqb d nl) eqn:E.
      * destruct Hin as [<-|Hin].
        -- now exists [], (c :: d :: r).
        -- destruct (IHr _ _ eq_refl _ Hin) as (pre & post & ->).
           now exists (c :: d :: pre), post.
      * pose proof (split_nn_nonempty (d :: r)) as Hne.
        destruct (split_nn (d :: r)) as [|q qs] eqn:Er; [contradiction|].
        destruct Hin as [<-|Hin].
        -- destruct (IHt q (or_introl eq_refl)) as (pre & post & Eq).
           (* the first paragraph starts the text *)
           assert (Hq : exists post', d :: r = q ++ post').
           { rewrite <- (join_split (d :: r)), Er.
             destruct qs; simpl.
             - exists []. now rewrite app_nil_r.
             - eexists. reflexivity. }
           destruct Hq as (post' & ->).
           now exists [], post'.
        -- destruct (IHt p (or_intror Hin)) as (pre & post & ->).
           now exists (c :: pre), post.
Qed.

End Paragraphs.

(** ** The substitution scan *)

Section Scan.

Variable needle : str.
Variable tpl : list Re.titem.

Lemma occurs_in_cons (c : ascii) (t : str) :
  occurs_in (c :: t) needle =
  Re.match_at needle (c :: t) || occurs_in t needle.
Proof. unfold occurs_in. now rewrite match_at_lower. Qed.

Lemma occurs_in_nil_needle (s : str) : occurs_in s [] = true.
Proof. unfold occurs_in. apply contains_nil. Qed.

Lemma sub_go_skip (k : nat) (s : str) :
  k <= List.length s ->
  Re.sub_go needle tpl k s = Re.sub_go needle tpl 0 (skipn k s).
Proof.
  revert k. induction s as [|c t IH]; intros [|k] Hk; simpl in *;
    try reflexivity; try lia.
  apply IH. lia.
Qed.

Lemma match_at_split (s : str) :
  Re.match_at needle s = true ->
  exists m post, s = m ++ post /\ List.length m = List.length needle /\
                 lower m = lower needle.
Proof.
  revert s. induction needle as [|a p IH]; intros s H.
  - now exists [], s.
  - destruct s as [|b t]; [discriminate|]. simpl in H.
    apply andb_true_iff in H as [E H]. apply Ascii.eqb_eq in E.
    destruct (IH _ H) as (m & post & -> & Hl & Hm).
    exists (b :: m), post. simpl. now rewrite Hl, Hm, E.
Qed.

Lemma match_at_span (m post : str) :
  List.length m = List.length needle -> lower m = lower needle ->
  Re.match_at needle (m ++ post) = true.
Proof.
  intros _ Hm. rewrite match_at_lower, lower_app, Hm.
  apply is_prefix_self_app.
Qed.

Lemma sub_go_miss (c : ascii) (t : str) :
  Re.match_at needle (c :: t) = false ->
  Re.sub_go needle tpl 0 (c :: t) = c :: Re.sub_go needle tpl 0 t.
Proof. intros H. simpl Re.sub_go. now rewrite H. Qed.

Lemma sub_go_hit (m post : str) :
  needle <> [] ->
  List.length m = List.length needle -> lower m = lower needle ->
  Re.sub_go needle tpl 0 (m ++ post) =
  Re.expand tpl m ++ Re.sub_go needle tpl 0 post.
Proof.
  intros Hne Hl Hm.
  pose proof (match_at_span m post Hl Hm) as Hmatch.
  destruct needle as [|a n'] eqn:En; [contradiction|].
  destruct m as [|c m']; [discriminate|].
  change ((c :: m') ++ post) with (c :: (m' ++ post)) in *.
  simpl Re.sub_go. simpl in Hmatch. rewrite Hmatch.
  simpl in Hl. injection Hl as Hl. f_equal.
  - rewrite <- Hl, firstn_app, firstn_all, Nat.sub_diag.
    simpl. now rewrite app_nil_r.
  - rewrite <- En, sub_go_skip by (rewrite length_app; lia).
    rewrite <- Hl, skipn_app, skipn_all, Nat.sub_diag. reflexivity.
Qed.

Lemma sub_go_no_start (pre rest : str) :
  no_start needle pre rest = true ->
  Re.sub_go needle tpl 0 (pre ++ rest) = pre ++ Re.sub_go needle tpl 0 rest.
Proof.
  induction pre as [|c p IH]; intros H; [reflexivity|].
  simpl in H. apply andb_true_iff in H as [H1 H2].
  apply negb_true_iff in H1.
  change ((c :: p) ++ rest) with (c :: (p ++ rest)) in *.
  rewrite sub_go_miss by assumption. simpl. f_equal. auto.
Qed.

(** Where nothing matches, the text is returned as it is. *)
Lemma sub_go_absent (s : str) :
  occurs_in s needle = false -> Re.sub_go needle tpl 0 s = s.
Proof.
  induction s as [|c t IH]; intros H.
  - destruct needle; [now rewrite occurs_in_nil_needle in H | reflexivity].
  - rewrite occurs_in_cons in H. apply orb_false_iff in H as [H1 H2].
    rewrite sub_go_miss by assumption. f_equal. auto.
Qed.

Lemma first_match (s : str) :
  occurs_in s needle = true ->
  exists pre rest, s = pre ++ rest /\ no_start needle pre rest = true /\
                   Re.match_at needle rest = true.
Proof.
  induction s as [|c t IH]; intros H.
  - exists [], []. repeat split.
    unfold occurs_in in H. simpl in H. rewrite orb_false_r in H.
    now rewrite match_at_lower.
  - rewrite occurs_in_cons in H.
    destruct (Re.match_at needle (c :: t)) eqn:E.
    + now exists [], (c :: t).
    + destruct (IH H) as (pre & rest & -> & Hp & Hr).
      exists (c :: pre), rest. repeat split; trivial.
      simpl. change (c :: pre ++ rest) with (c :: (pre ++ rest)).
      now rewrite E, Hp.
Qed.

(** The scan replaces every match and nothing else. *)
Lemma sub_go_replaced (s : str) :
  needle <> [] ->
  replaced needle (Re.expand tpl) s (Re.sub_go needle tpl 0 s).
Proof.
  intros Hne.
  remember (List.length s) as n eqn:En.
  revert s En. induction n as [n IH] using lt_wf_ind. intros s ->.
  destruct (occurs_in s needle) eqn:Ho.
  - destruct (first_match s Ho) as (pre & rest & -> & Hp & Hr).
    destruct (match_at_split rest Hr) as (m & post & -> & Hl & Hm).
    rewrite sub_go_no_start by assumption.
    rewrite sub_go_hit by assumption.
    apply replaced_hit; trivial.
    apply (IH (List.length post)); trivial.
    rewrite !length_app. destruct needle; [contradiction|].
    simpl in Hl. lia.
  - rewrite sub_go_absent by assumption. now apply replaced_none.
Qed.

End Scan.

(** ** Replacement templates without a backslash *)

Section Templates.

Lemma parse_go_plain (s : str) :
  no_backslash s = true -> Re.parse_go 0 s = Some (map Re.TLit s).
Proof.
  induction s as [|c t IH]; intros H; [reflexivity|].
  simpl in H. apply andb_true_iff in H as [Hc Ht].
  apply negb_true_iff in Hc. simpl. rewrite Hc, (IH Ht). reflexivity.
Qed.

Lemma expand_plain (s m : str) : Re.expand (map Re.TLit s) m = s.
Proof.
  unfold Re.expand. induction s as [|c t IH]; simpl; congruence.
Qed.

Lemma no_backslash_bold (x : str) :
  no_backslash x = true -> no_backslash (bold x) = true.
Proof.
  intros H. unfold bold, no_backslash in *.
  rewrite !forallb_app, H. reflexivity.
Qed.

(** With a backslash-free [x], [re.sub] to [f"<b>{x}</b>"] cannot raise,
    and the replacement text is the template itself. *)
Lemma sub_bold_plain (needle x s : str) :
  no_backslash x = true ->
  Re.sub needle (bold x) s
  = Some (Re.sub_go needle (map Re.TLit (bold x)) 0 s).
Proof.
  intros H. unfold Re.sub, Re.parse_template.
  now rewrite (parse_go_plain _ (no_backslash_bold _ H)).
Qed.

Lemma sub_bold_absent (needle x s : str) :
  no_backslash x = true -> occurs_in s needle = false ->
  Re.sub needle (bold x) s = Some s.
Proof.
  intros Hx Ho. rewrite sub_bold_plain by assumption.
  now rewrite sub_go_absent.
Qed.

Lemma sub_bold_replaced (needle x s : str) :
  needle <> [] -> no_backslash x = true ->
  exists out, Re.sub needle (bold x) s = Some out /\
              replaced needle (fun _ => bold x) s out.
Proof.
  intros Hne Hx. rewrite sub_bold_plain by assumption.
  eexists. split; [reflexivity|].
  pose proof (sub_go_replaced needle (map Re.TLit (bold x)) s Hne) as H.
  induction H.
  - now apply replaced_none.
  - rewrite expand_plain.
    now apply (@replaced_hit needle (fun _ => bold x) pre m post out).
Qed.

End Templates.

(** ** The catalog, flattened in declaration order *)

Section Catalog.

Lemma filter_flat_map {A B : Type} (P : B -> bool) (f : A -> list B)
  (l : list A) :
  flat_map (fun x => filter P (f x)) l = filter P (flat_map f l).
Proof.
  induction l as [|x l IH]; simpl; [reflexivity|].
  now rewrite filter_app, IH.
Qed.

Lemma candidates_filter (bolded : str) :
  candidates bolded = filter (occurs_in bolded) all_keywords.
Proof. apply filter_flat_map. Qed.

Lemma candidates_in (bolded kw : str) :
  In kw (candidates bolded) <->
  In kw all_keywords /\ occurs_in bolded kw = true.
Proof. rewrite candidates_filter. apply filter_In. Qed.

Lemma selected_in (bolded kw : str) :
  In kw (selected bolded) ->
  In kw all_keywords /\ occurs_in bolded kw = true.
Proof.
  intros H. apply candidates_in. unfold selected in H.
  rewrite <- (firstn_skipn 3 (candidates bolded)).
  apply in_or_app. now left.
Qed.

Lemma selected_length (bolded : str) : List.length (selected bolded) <= 3.
Proof. apply firstn_le_length. Qed.

Lemma candidates_none (bolded : str) :
  (forall kw, In kw all_keywords -> occurs_in bolded kw = false) ->
  candidates bolded = [].
Proof.
  intros H. rewrite candidates_filter.
  induction all_keywords as [|k l IH]; [reflexivity|].
  simpl. rewrite (H k (or_introl eq_refl)). apply IH.
  intros kw Hin. apply H. now right.
Qed.

(** Catalog phrases are not empty and hold no backslash. *)
Lemma keyword_plain (kw : str) :
  In kw all_keywords -> kw <> [] /\ no_backslash kw = true.
Proof.
  assert (H : Forall (fun k => k <> [] /\ no_backslash k = true) all_keywords).
  { repeat constructor; discriminate. }
  rewrite Forall_forall in H. apply H.
Qed.

End Catalog.

(** ** The keyword loop and the paragraph loop *)

Section Loops.

Lemma bold_each_chain (kws : list str) (s : str) :
  (forall kw, In kw kws -> In kw all_keywords) ->
  exists out, bold_each kws s = Some out /\ chain kws s out.
Proof.
  revert s. induction kws as [|kw kws IH]; intros s Hin.
  - exists s. split; constructor.
  - destruct (keyword_plain kw (Hin kw (or_introl eq_refl))) as [Hne Hp].
    destruct (sub_bold_replaced kw kw s Hne Hp) as (s' & Hs & Hr).
    destruct (IH s' (fun k Hk => Hin k (or_intror Hk))) as (out & Ho & Hc).
    exists out. split.
    + simpl. now rewrite Hs.
    + econstructor; eassumption.
Qed.

Lemma bold_keywords_chain (bolded : str) :
  exists out, bold_keywords bolded = Some out /\
              chain (selected bolded) bolded out.
Proof.
  apply bold_each_chain. intros kw H. now apply selected_in in H.
Qed.

Lemma bold_keywords_none (bolded : str) :
  (forall kw, In kw all_keywords -> occurs_in bolded kw = false) ->
  bold_keywords bolded = Some bolded.
Proof.
  intros H. unfold bold_keywords. now rewrite (candidates_none _ H).
Qed.

Lemma bold_company_absent (company used : _) (para : str) :
  occurs_in para company = false ->
  bold_company company used para = Some (used, para).
Proof.
  intros H. unfold bold_company. now rewrite H, andb_false_r.
Qed.

Lemma bold_company_used (company : str) (para : str) :
  bold_company company true para = Some (true, para).
Proof. reflexivity. Qed.

Lemma bold_paragraph_untouched (company : str) (used : bool) (para : str) :
  occurs_in para company = false ->
  (forall kw, In kw all_keywords -> occurs_in para kw = false) ->
  bold_paragraph company used para = Some (used, para).
Proof.
  intros Hc Hk. unfold bold_paragraph.
  now rewrite bold_company_absent, bold_keywords_none.
Qed.

Lemma bold_paragraphs_untouched (company : str) (used : bool)
  (paras : list str) :
  (forall p, In p paras ->
     occurs_in p company = false /\
     forall kw, In kw all_keywords -> occurs_in p kw = false) ->
  bold_paragraphs company used paras = Some paras.
Proof.
  induction paras as [|p ps IH]; intros H; [reflexivity|].
  destruct (H p (or_introl eq_refl)) as [Hc Hk].
  simpl. rewrite bold_paragraph_untouched by assumption.
  rewrite IH; [reflexivity|]. intros q Hq. apply H. now right.
Qed.

Lemma absent_in_paragraphs (text needle p : str) :
  occurs_in text needle = false -> In p (split_nn text) ->
  occurs_in p needle = false.
Proof.
  intros H Hin. destruct (split_nn_infix _ _ Hin) as (pre & post & ->).
  destruct (occurs_in p needle) eqn:E; [|reflexivity].
  now rewrite (occurs_in_infix _ pre p post E) in H.
Qed.

Lemma apply_untouched (text company : str) :
  occurs_in text company = false ->
  (forall kw, In kw all_keywords -> occurs_in text kw = false) ->
  apply_programmatic_bolding text company = Some text.
Proof.
  intros Hc Hk. unfold apply_programmatic_bolding.
  rewrite bold_paragraphs_untouched.
  - simpl. now rewrite join_split.
  - intros p Hp. split.
    + eapply absent_in_paragraphs; eassumption.
    + intros kw Hkw. eapply absent_in_paragraphs; eauto.
Qed.

(** With a company name that holds no backslash the pass cannot raise. *)
Lemma bold_company_total (company : str) (used : bool) (para : str) :
  no_backslash company = true ->
  exists r, bold_company company used para = Some r.
Proof.
  intros H. unfold bold_company.
  destruct (negb used && occurs_in para company); [|eauto].
  rewrite sub_bold_plain by assumption. eauto.
Qed.

Lemma bold_paragraphs_total (company : str) (used : bool) (paras : list str) :
  no_backslash company = true ->
  exists r, bold_paragraphs company used paras = Some r.
Proof.
  intros H. revert used. induction paras as [|p ps IH]; intros used.
  - now exists [].
  - simpl. unfold bold_paragraph.
    destruct (bold_company_total company used p H) as ([u b] & ->).
    destruct (bold_keywords_chain b) as (out & -> & _).
    destruct (IH u) as (r & ->). simpl. eauto.
Qed.

Lemma apply_total_plain (text company : str) :
  no_backslash company = true ->
  exists r, apply_programmatic_bolding text company = Some r.
Proof.
  intros H. unfold apply_programmatic_bolding.
  destruct (bold_paragraphs_total company false (split_nn text) H) as (r & ->).
  simpl. eauto.
Qed.

Lemma bold_paragraphs_steps (company : str) (used : bool)
  (paras outs : list str) :
  bold_paragraphs company used paras = Some outs ->
  Forall2 (paragraph_step company) paras outs.
Proof.
  revert used outs. induction paras as [|p ps IH]; intros used outs H.
  - injection H as <-. constructor.
  - simpl in H. unfold bold_paragraph in H.
    destruct (bold_company company used p) as [[u b]|] eqn:Ec; [|discriminate].
    destruct (bold_keywords_chain b) as (o & Ho & Hc). rewrite Ho in H.
    destruct (bold_paragraphs company u ps) as [os|] eqn:Er; [|discriminate].
    injection H as <-. constructor; [|eauto].
    exists used, u, b. repeat split; trivial.
    + unfold selected. now rewrite candidates_filter.
    + apply selected_length.
Qed.

End Loops.

(** ** The emphasis pass: company name *)

(** C1.  The company name is meant to be wrapped once in the whole text,
    at its first occurrence.  The substitution of the company step has no
    count, so in the one paragraph that holds the name twice both
    occurrences are wrapped. *)
Theorem company_wrapped_at_every_occurrence :
  let T := $"Acme builds. Acme ships." in
  split_nn T = [T] /\
  apply_programmatic_bolding T $"Acme"
  = Some $"<b>Acme</b> builds. <b>Acme</b> ships.".
Proof. split; reflexivity. Qed.

(** ** The emphasis pass: keywords *)

(** C3, as stated, fails.  In this paragraph two catalog keywords overlap;
    both are selected, the earlier one in catalog order is wrapped, and the
    occurrence of the later one is then no longer found. *)
Lemma selected_keyword_left_unwrapped :
  let P := $"record-to-reportransaction flows" in
  let kw := $"transaction flows" in
  In kw (selected P) /\ occurs_in P kw = true /\
  apply_programmatic_bolding P $"Acme"
  = Some $"<b>Record-to-Report</b>ransaction flows" /\
  occurs_in $"<b>Record-to-Report</b>ransaction flows" (bold kw) = false.
Proof.
  repeat split; try reflexivity.
  vm_compute. tauto.
Qed.

(** C3, amended.  Each paragraph goes through the company step and then
    the keyword step.  The keyword step selects the first three, in catalog
    declaration order, of the catalog keywords that occur (letter case
    ignored) in the paragraph as the company step left it, so at most three;
    it takes them in that order and replaces every occurrence (leftmost
    first, not overlapping) that the paragraph holds when the keyword's turn
    comes by the keyword in bold markers.  The output is the paragraphs
    joined again. *)
Theorem keyword_step_per_paragraph (T C : str) :
  (no_backslash C = true ->
   exists R, apply_programmatic_bolding T C = Some R) /\
  (forall R,
     apply_programmatic_bolding T C = Some R ->
     exists outs,
       R = join_nn outs /\
       Forall2
         (fun para out =>
            exists used used' bolded,
              bold_company C used para = Some (used', bolded) /\
              selected bolded
              = firstn 3 (filter (occurs_in bolded) all_keywords) /\
              List.length (selected bolded) <= 3 /\
              chain (selected bolded) bolded out)
         (split_nn T) outs).
Proof.
  split; [apply apply_total_plain|].
  unfold apply_programmatic_bolding. intros R H.
  destruct (bold_paragraphs C false (split_nn T)) as [outs|] eqn:E;
    [|discriminate].
  injection H as <-. exists outs. split; [reflexivity|].
  exact (bold_paragraphs_steps C false (split_nn T) outs E).
Qed.

Lemma keyword_step_per_paragraph_witness :
  let T := $"MIS and compliance, data accuracy, reconciliations, decision support" in
  let R := $"MIS and <b>compliance</b>, <b>data accuracy</b>, <b>reconciliations</b>, decision support" in
  no_backslash $"Acme" = true /\
  apply_programmatic_bolding T $"Acme" = Some R /\
  (exists R', apply_programmatic_bolding T $"Acme" = Some R') /\
  exists outs,
    R = join_nn outs /\
    Forall2
      (fun para out =>
         exists used used' bolded,
           bold_company $"Acme" used para = Some (used', bolded) /\
           selected bolded
           = firstn 3 (filter (occurs_in bolded) all_keywords) /\
           List.length (selected bolded) <= 3 /\
           chain (selected bolded) bolded out)
      (split_nn T) outs.
Proof.
  intros T R. split; [reflexivity|]. split; [reflexivity|]. split.
  - exact (proj1 (keyword_step_per_paragraph T $"Acme") eq_refl).
  - exact (proj2 (keyword_step_per_paragraph T $"Acme") R eq_refl).
Defined.

(** C4, as stated, fails: keywords are bolded whether or not the company
    name occurs. *)
Lemma keyword_bolded_without_company :
  let T := $"MIS work" in
  occurs_in T $"Acme" = false /\
  apply_programmatic_bolding T $"Acme" = Some $"<b>MIS</b> work" /\
  apply_programmatic_bolding T $"Acme" <> Some T.
Proof. repeat split; try reflexivity. discriminate. Qed.

(** C4, amended.  When neither the company name nor any catalog keyword
    occurs (letter case ignored) in the text, the text is returned as it
    is. *)
Theorem no_match_no_markup (T C : str) :
  occurs_in T C = false ->
  (forall kw, In kw all_keywords -> occurs_in T kw = false) ->
  apply_programmatic_bolding T C = Some T.
Proof. apply apply_untouched. Qed.

Lemma no_match_no_markup_witness :
  let T := $"We value integrity." ++ [nl; nl] ++ $"Kind regards." in
  occurs_in T $"Acme Corp" = false /\
  (forall kw, In kw all_keywords -> occurs_in T kw = false) /\
  apply_programmatic_bolding T $"Acme Corp" = Some T.
Proof.
  intros T.
  assert (Hk : forall kw, In kw all_keywords -> occurs_in T kw = false).
  { apply Forall_forall. repeat (constructor; [reflexivity|]). constructor. }
  split; [reflexivity|]. split; [exact Hk|].
  exact (no_match_no_markup T $"Acme Corp" eq_refl Hk).
Defined.




(** C6.  The pass is meant never to raise and to take the company name
    literally.  The name is escaped as a pattern but put unescaped into the
    replacement template: with a backslash followed by a letter in the
    name, [re.sub] raises [bad escape]. *)
Theorem backslash_in_company_raises :
  occurs_in $"Our R\D team is hiring." $"R\D" = true /\
  apply_programmatic_bolding $"Our R\D team is hiring." $"R\D" = None.
Proof. split; reflexivity. Qed.

(** ** Document assembly *)

(** C7.  For every text, date string and candidate data the element list
    is one header block, then one body block per paragraph of the text in
    input order, then one closing block: N + 2 blocks for N paragraphs.
    The closing block is six lines separated by line breaks, whatever the
    fields hold: [Sincerely,], an empty line, then name, mobile, email and
    LinkedIn URL. *)
Theorem document_blocks (today text : str) (data : Data) :
  create_pdf today text data
  = mkParagraph (header_text today data) Header
    :: map (fun para => mkParagraph para Body) (split_nn text)
    ++ [mkParagraph (closing_text data) Header] /\
  List.length (create_pdf today text data)
  = 1 + List.length (split_nn text) + 1 /\
  closing_text data
  = nl :: join_br [ $"Sincerely,";
                    [];
                    nl :: name data;
                    nl :: mobile data;
                    nl :: email data;
                    nl :: linkedin data ++ [nl] ].
Proof.
  split; [reflexivity|]. split.
  - unfold create_pdf. rewrite !length_app, length_map. simpl. lia.
  - unfold closing_text, join_br, br.
    cbn [list_ascii_of_string app].
    repeat (rewrite <- ?app_assoc; cbn [app]; repeat f_equal).
Qed.

(** Five paragraphs and empty optional fields: seven blocks, and the
    closing block keeps its four contact lines. *)
Example document_five_paragraphs :
  let text := $"p1" ++ [nl; nl] ++ $"p2" ++ [nl; nl] ++ $"p3" ++ [nl; nl]
              ++ $"p4" ++ [nl; nl] ++ $"p5" in
  let data := mkData $"Ann Lee" $"Acme" $"Analyst" [] [] [] in
  map p_style (create_pdf $"04 March 2025" text data)
  = [Header; Body; Body; Body; Body; Body; Header] /\
  map p_text (create_pdf $"04 March 2025" text data)
  = [ $"<b>ANN LEE</b><br/>Date: 04 March 2025<br/><br/>Dear Hiring Manager,<br/><br/>";
      $"p1"; $"p2"; $"p3"; $"p4"; $"p5";
      nl :: $"Sincerely,<br/><br/>" ++ nl :: $"Ann Lee<br/>" ++ nl :: $"<br/>"
         ++ nl :: $"<br/>" ++ [nl; nl] ].
Proof. split; reflexivity. Qed.

(** ** Submission *)

Lemma on_submit_refused (client : str -> option str) (f : Form)
  (s : Session) :
  f_resume f = None \/ f_name f = [] \/ f_company f = [] \/ f_role f = [] ->
  on_submit client f s = mkRun [StError mandatory_message] s Stopped.
Proof.
  unfold on_submit.
  intros [H|[H|[H|H]]]; rewrite H; simpl; rewrite ?orb_true_r; reflexivity.
Qed.

Lemma on_submit_proceeds (client : str -> option str) (f : Form)
  (s : Session) (resume : pdf) :
  f_resume f = Some resume ->
  f_name f <> [] -> f_company f <> [] -> f_role f <> [] ->
  events (on_submit client f s)
  = [ChatCompletion
       (build_prompt (extract_text resume) (jd_text_of (f_jd f))
          (mkData (f_name f) (f_company f) (f_role f)
                  (f_email f) (f_mobile f) (f_linkedin f))
          (tone_label (f_tone f)))].
Proof.
  unfold on_submit. intros Hr Hn Hc Ho. rewrite Hr.
  destruct (f_name f); [contradiction|].
  destruct (f_company f) as [|c0 company0] eqn:Ec; [contradiction|].
  destruct (f_role f); [contradiction|].
  cbn [not_file not_str orb generate_cover_letter].
  destruct (option_map strip _); [|reflexivity].
  destruct (apply_programmatic_bolding _ _); reflexivity.
Qed.

(** The whole outcome of a run that passes the guard. *)
Lemma on_submit_outcome (client : str -> option str) (f : Form)
  (s : Session) (resume : pdf) :
  f_resume f = Some resume ->
  f_name f <> [] -> f_company f <> [] -> f_role f <> [] ->
  let data := mkData (f_name f) (f_company f) (f_role f)
                     (f_email f) (f_mobile f) (f_linkedin f) in
  let prompt := build_prompt (extract_text resume) (jd_text_of (f_jd f))
                  data (tone_label (f_tone f)) in
  on_submit client f s
  = match client prompt with
    | None => mkRun [ChatCompletion prompt] s Raised
    | Some response =>
        match apply_programmatic_bolding (strip response) (f_company f) with
        | None => mkRun [ChatCompletion prompt] s Raised
        | Some bolded =>
            mkRun [ChatCompletion prompt]
                  (mkSession (Some bolded) (Some data)) Finished
        end
    end.
Proof.
  unfold on_submit. intros Hr Hn Hc Ho. rewrite Hr.
  destruct (f_name f); [contradiction|].
  destruct (f_company f) as [|c0 company0] eqn:Ec; [contradiction|].
  destruct (f_role f); [contradiction|].
  cbn [not_file not_str orb generate_cover_letter].
  destruct (client _); reflexivity.
Qed.

(** C8.  When the resume upload is missing or one of name, company and
    role is empty, the run shows the mandatory-field error and stops: the
    text-generation service is not called and the session state is what it
    was.  When all four are present, the pipeline runs: the service is
    called once with the prompt built from the inputs, its answer is
    stripped and passed through the emphasis pass, and the result is stored
    with the candidate data; the session state is left as it was only if
    the service call or the pass raises.  With an answer from the service
    and a company name without a backslash, the run finishes. *)
Theorem submit_guard (client : str -> option str) (f : Form) (s : Session) :
  (f_resume f = None \/ f_name f = [] \/ f_company f = [] \/ f_role f = [] ->
   on_submit client f s = mkRun [StError mandatory_message] s Stopped) /\
  (forall resume,
     f_resume f = Some resume ->
     f_name f <> [] -> f_company f <> [] -> f_role f <> [] ->
     let data := mkData (f_name f) (f_company f) (f_role f)
                        (f_email f) (f_mobile f) (f_linkedin f) in
     let prompt := build_prompt (extract_text resume) (jd_text_of (f_jd f))
                     data (tone_label (f_tone f)) in
     events (on_submit client f s) = [ChatCompletion prompt] /\
     on_submit client f s
     = match client prompt with
       | None => mkRun [ChatCompletion prompt] s Raised
       | Some response =>
           match apply_programmatic_bolding (strip response) (f_company f)
           with
           | None => mkRun [ChatCompletion prompt] s Raised
           | Some bolded =>
               mkRun [ChatCompletion prompt]
                     (mkSession (Some bolded) (Some data)) Finished
           end
       end /\
     (forall response,
        client prompt = Some response ->
        no_backslash (f_company f) = true ->
        exists bolded,
          apply_programmatic_bolding (strip response) (f_company f)
          = Some bolded /\
          on_submit client f s
          = mkRun [ChatCompletion prompt]
                  (mkSession (Some bolded) (Some data)) Finished)).
Proof.
  split; [apply on_submit_refused|].
  intros resume Hr Hn Hc Ho data prompt.
  pose proof (on_submit_outcome client f s resume Hr Hn Hc Ho) as E.
  cbv zeta in E. fold data in E. fold prompt in E.
  split; [|split].
  - exact (on_submit_proceeds client f s resume Hr Hn Hc Ho).
  - exact E.
  - intros response Hresp Hb.
    destruct (apply_total_plain (strip response) (f_company f) Hb)
      as (bolded & Hbd).
    exists bolded. split; [exact Hbd|].
    rewrite E, Hresp, Hbd. reflexivity.
Qed.

Lemma submit_guard_witness :
  let client := fun _ : str => Some $" We do MIS work. " in
  let s := mkSession None None in
  let cv := [Some $"Chartered Accountant"] in
  let f1 := mkForm (Some cv) None $"Ann Lee" $"Acme" [] StartupGrowth
                   [] [] [] in
  let f2 := mkForm (Some cv) None $"Ann Lee" $"Acme" $"Analyst" StartupGrowth
                   [] [] [] in
  let data := mkData $"Ann Lee" $"Acme" $"Analyst" [] [] [] in
  let prompt := build_prompt (extract_text cv) (jd_text_of (f_jd f2))
                  data (tone_label (f_tone f2)) in
  ((f_resume f1 = None \/ f_name f1 = [] \/ f_company f1 = []
    \/ f_role f1 = []) /\
   on_submit client f1 s = mkRun [StError mandatory_message] s Stopped) /\
  (f_resume f2 = Some cv /\
   f_name f2 <> [] /\ f_company f2 <> [] /\ f_role f2 <> [] /\
   client prompt = Some $" We do MIS work. " /\
   no_backslash (f_company f2) = true /\
   events (on_submit client f2 s) = [ChatCompletion prompt] /\
   on_submit client f2 s
   = mkRun [ChatCompletion prompt]
           (mkSession (Some $"We do <b>MIS</b> work.") (Some data))
           Finished /\
   exists bolded,
     apply_programmatic_bolding (strip $" We do MIS work. ") (f_company f2)
     = Some bolded /\
     on_submit client f2 s
     = mkRun [ChatCompletion prompt]
             (mkSession (Some bolded) (Some data)) Finished).
Proof.
  intros client s cv f1 f2 data prompt.
  assert (H1 : f_resume f1 = None \/ f_name f1 = [] \/ f_company f1 = []
               \/ f_role f1 = []) by (right; right; right; reflexivity).
  assert (Hn : f_name f2 <> []) by discriminate.
  assert (Hc : f_company f2 <> []) by discriminate.
  assert (Hr : f_role f2 <> []) by discriminate.
  split.
  - split; [exact H1|]. exact (proj1 (submit_guard client f1 s) H1).
  - split; [reflexivity|].
    split; [exact Hn|]. split; [exact Hc|]. split; [exact Hr|].
    split; [reflexivity|]. split; [reflexivity|].
    destruct (proj2 (submit_guard client f2 s) cv eq_refl Hn Hc Hr)
      as (Ev & Eo & Fin).
    split; [exact Ev|]. split; [reflexivity|].
    exact (Fin $" We do MIS work. " eq_refl eq_refl).
Defined.

(** C9.  On a submission that passes the guard with no job-description
    upload, the job-description section of the prompt sent to the service,
    the text between the [JOB DESCRIPTION:] line and the [OUTPUT:] part, is
    the string [Not provided]. *)
Theorem prompt_without_job_description
  (client : str -> option str) (f : Form) (s : Session) (resume : pdf) :
  f_resume f = Some resume ->
  f_name f <> [] -> f_company f <> [] -> f_role f <> [] ->
  f_jd f = None ->
  jd_section (jd_text_of (f_jd f)) = $"Not provided" /\
  prompt_jd = nl :: nl :: $"JOB DESCRIPTION:" ++ [nl] /\
  events (on_submit client f s)
  = [ChatCompletion
       (prompt_rules ++ tone_label (f_tone f) ++
        prompt_candidate ++ f_name f ++
        prompt_company ++ f_company f ++
        prompt_role ++ f_role f ++
        prompt_resume ++ extract_text resume ++
        prompt_jd ++ $"Not provided" ++ prompt_output)].
Proof.
  intros Hr Hn Hc Ho Hj.
  rewrite (on_submit_proceeds client f s resume Hr Hn Hc Ho), Hj.
  repeat split.
Qed.

Lemma prompt_without_job_description_witness :
  let client := fun _ : str => Some $"We value integrity." in
  let s := mkSession None None in
  let cv := [Some $"Chartered Accountant"] in
  let f := mkForm (Some cv) None $"Ann Lee" $"Acme" $"Analyst"
                  CorporateListed [] [] [] in
  f_resume f = Some cv /\
  f_name f <> [] /\ f_company f <> [] /\ f_role f <> [] /\
  f_jd f = None /\
  jd_section (jd_text_of (f_jd f)) = $"Not provided" /\
  prompt_jd = nl :: nl :: $"JOB DESCRIPTION:" ++ [nl] /\
  events (on_submit client f s)
  = [ChatCompletion
       (prompt_rules ++ tone_label (f_tone f) ++
        prompt_candidate ++ f_name f ++
        prompt_company ++ f_company f ++
        prompt_role ++ f_role f ++
        prompt_resume ++ extract_text cv ++
        prompt_jd ++ $"Not provided" ++ prompt_output)].
Proof.
  intros client s cv f.
  assert (Hn : f_name f <> []) by discriminate.
  assert (Hc : f_company f <> []) by discriminate.
  assert (Hr : f_role f <> []) by discriminate.
  split; [reflexivity|].
  split; [exact Hn|]. split; [exact Hc|]. split; [exact Hr|].
  split; [reflexivity|].
  exact (prompt_without_job_description client f s cv
           eq_refl Hn Hc Hr eq_refl).
Defined.

(** C10.  A job-description upload from which no text is extracted gives
    the same run as no upload: the section reads [Not provided], the prompt
    is the same for every resume text, candidate and tone, and so is the
    whole submission. *)
Theorem empty_job_description_as_none
  (client : str -> option str) (f : Form) (s : Session) (doc : pdf) :
  f_jd f = Some doc ->
  extract_text doc = [] ->
  jd_section (jd_text_of (f_jd f)) = $"Not provided" /\
  (forall resume_text data tone,
     build_prompt resume_text (jd_text_of (f_jd f)) data tone
     = build_prompt resume_text (jd_text_of None) data tone) /\
  on_submit client f s = on_submit client (with_jd f None) s.
Proof.
  intros Hj He.
  assert (E : jd_text_of (f_jd f) = jd_text_of None).
  { rewrite Hj. simpl. exact He. }
  split; [now rewrite E|]. split; [intros; now rewrite E|].
  unfold on_submit. destruct f. simpl in *. now rewrite E.
Qed.

Lemma empty_job_description_as_none_witness :
  let client := fun _ : str => Some $"We value integrity." in
  let s := mkSession None None in
  let cv := [Some $"Chartered Accountant"] in
  let doc := [None; Some $"  "; Some []] in
  let f := mkForm (Some cv) (Some doc) $"Ann Lee" $"Acme" $"Analyst"
                  ProfessionalFirm [] [] [] in
  f_jd f = Some doc /\
  extract_text doc = [] /\
  jd_section (jd_text_of (f_jd f)) = $"Not provided" /\
  (forall resume_text data tone,
     build_prompt resume_text (jd_text_of (f_jd f)) data tone
     = build_prompt resume_text (jd_text_of None) data tone) /\
  on_submit client f s = on_submit client (with_jd f None) s.
Proof.
  intros client s cv doc f.
  split; [reflexivity|]. split; [reflexivity|].
  exact (empty_job_description_as_none client f s doc eq_refl eq_refl).
Defined.

(** * Further properties of the code *)

(** ** Paragraph structure *)

Section Structure.

Lemma contains_nlnl_cons (c : ascii) (t : str) :
  contains [nl; nl] (c :: t)
  = match t with
    | d :: _ => (Ascii.eqb c nl && Ascii.eqb d nl)
    | [] => false
    end || contains [nl; nl] t.
Proof.
  destruct t as [|d r]; cbn [contains is_prefix].
  - now rewrite andb_false_r.
  - now rewrite andb_true_r, (Ascii.eqb_sym nl c), (Ascii.eqb_sym nl d).
Qed.

Lemma split_nn_head (s p : str) (ps : list str) :
  split_nn s = p :: ps ->
  s = match ps with [] => p | _ :: _ => p ++ nl :: nl :: join_nn ps end.
Proof.
  intros H. rewrite <- (join_split s), H. destruct ps; reflexivity.
Qed.

Lemma split_nn_ok (s : str) : paragraphs_ok (split_nn s) = true.
Proof.
  induction s as [|c t IHt IHr] using str_ind2; [reflexivity|].
  rewrite split_nn_cons. destruct t as [|d r].
  - simpl. now rewrite andb_false_r.
  - destruct (Ascii.eqb c nl && Ascii.eqb d nl) eqn:E.
    + specialize (IHr d r eq_refl).
      pose proof (split_nn_nonempty r) as Hne.
      destruct (split_nn r) as [|q qs]; [contradiction|].
      exact IHr.
    + pose proof (split_nn_nonempty (d :: r)) as Hne.
      destruct (split_nn (d :: r)) as [|p ps] eqn:Es; [contradiction|].
      pose proof (split_nn_head _ _ _ Es) as Hd.
      assert (Hc : contains [nl; nl] (c :: p) = contains [nl; nl] p).
      { rewrite contains_nlnl_cons. destruct p as [|x p']; [reflexivity|].
        assert (x = d) by (destruct ps; simpl in Hd; congruence).
        subst x. now rewrite E. }
      destruct ps as [|q qs].
      * cbn [paragraphs_ok] in *. now rewrite Hc.
      * change (paragraphs_ok ((c :: p) :: q :: qs))
          with (negb (contains [nl; nl] (c :: p)) && negb (ends_nl (c :: p))
                && paragraphs_ok (q :: qs)).
        change (paragraphs_ok (p :: q :: qs))
          with (negb (contains [nl; nl] p) && negb (ends_nl p)
                && paragraphs_ok (q :: qs)) in IHt.
        rewrite Hc. destruct p as [|x p'].
        -- simpl in Hd. injection Hd as -> _. simpl in IHt |- *.
           rewrite andb_true_r in E. rewrite E. exact IHt.
        -- exact IHt.
Qed.

Lemma split_nn_piece (p : str) :
  contains [nl; nl] p = false -> split_nn p = [p].
Proof.
  induction p as [|c t IH]; intros H; [reflexivity|].
  rewrite contains_nlnl_cons in H. apply orb_false_iff in H as [H1 H2].
  rewrite split_nn_cons. destruct t as [|d r]; [reflexivity|].
  rewrite H1, (IH H2). reflexivity.
Qed.

Lemma split_nn_app_sep (p t : str) :
  contains [nl; nl] p = false -> ends_nl p = false ->
  split_nn (p ++ nl :: nl :: t) = p :: split_nn t.
Proof.
  induction p as [|c p' IH]; intros Hc He; [reflexivity|].
  rewrite contains_nlnl_cons in Hc. apply orb_false_iff in Hc as [H1 H2].
  change ((c :: p') ++ nl :: nl :: t) with (c :: (p' ++ nl :: nl :: t)).
  rewrite split_nn_cons. destruct p' as [|d r].
  - cbn [ends_nl] in He. cbn [app]. rewrite He. cbn [andb].
    rewrite (split_nn_cons nl (nl :: t)), Ascii.eqb_refl. reflexivity.
  - cbn [app] in *. rewrite H1.
    rewrite IH; [reflexivity | exact H2 | exact He].
Qed.

Lemma split_join (ps : list str) :
  paragraphs_ok ps = true -> split_nn (join_nn ps) = ps.
Proof.
  induction ps as [|p rest IH]; intros H; [discriminate|].
  destruct rest as [|q qs].
  - simpl in *. apply split_nn_piece. now apply negb_true_iff.
  - change (paragraphs_ok (p :: q :: qs))
      with (negb (contains [nl; nl] p) && negb (ends_nl p)
            && paragraphs_ok (q :: qs)) in H.
    apply andb_true_iff in H as [H H3]. apply andb_true_iff in H as [H1 H2].
    apply negb_true_iff in H1, H2.
    change (join_nn (p :: q :: qs)) with (p ++ nl :: nl :: join_nn (q :: qs)).
    rewrite split_nn_app_sep by assumption. now rewrite IH.
Qed.

End Structure.

(** ** The pass keeps the paragraph structure *)

Section Shape.

Lemma lower_char_nl (c : ascii) :
  Ascii.eqb (lower_char c) nl = Ascii.eqb c nl.
Proof. destruct c as [[] [] [] [] [] [] [] []]; reflexivity. Qed.

Lemma contains_nlnl_lower (s : str) :
  contains [nl; nl] (lower s) = contains [nl; nl] s.
Proof.
  induction s as [|c t IH]; [reflexivity|].
  change (lower (c :: t)) with (lower_char c :: lower t).
  rewrite !contains_nlnl_cons, IH. f_equal.
  destruct t as [|d r]; [reflexivity|].
  change (lower (d :: r)) with (lower_char d :: lower r).
  now rewrite !lower_char_nl.
Qed.

(** A character other than the line feed keeps separators apart. *)
Lemma contains_nlnl_sep (a b : str) (c : ascii) :
  Ascii.eqb c nl = false ->
  contains [nl; nl] (a ++ c :: b)
  = contains [nl; nl] a || contains [nl; nl] b.
Proof.
  intros Hc. induction a as [|x a IH].
  - cbn [app]. rewrite contains_nlnl_cons.
    destruct b; now rewrite ?Hc.
  - change ((x :: a) ++ c :: b) with (x :: (a ++ c :: b)).
    rewrite !contains_nlnl_cons, IH, orb_assoc. f_equal. f_equal.
    destruct a as [|y a']; cbn [app]; [|reflexivity].
    now rewrite Hc, andb_false_r.
Qed.

Lemma ends_nl_app (a b : str) :
  b <> [] -> ends_nl (a ++ b) = ends_nl b.
Proof.
  intros Hb. induction a as [|x a IH]; [reflexivity|].
  change ((x :: a) ++ b) with (x :: (a ++ b)).
  destruct (a ++ b) as [|y r] eqn:E.
  - destruct a; [cbn [app] in E; contradiction | discriminate].
  - rewrite <- IH. reflexivity.
Qed.

Lemma ends_nl_true_nonempty (s : str) : ends_nl s = true -> s <> [].
Proof. destruct s; [discriminate | discriminate]. Qed.

Lemma contains_nlnl_parts (a b c : str) :
  contains [nl; nl] (a ++ b ++ c) = false ->
  contains [nl; nl] a = false /\ contains [nl; nl] b = false /\
  contains [nl; nl] c = false.
Proof.
  intros H. repeat split.
  - destruct (contains [nl; nl] a) eqn:E; [|reflexivity].
    now rewrite (contains_app_l _ _ (b ++ c) E) in H.
  - destruct (contains [nl; nl] b) eqn:E; [|reflexivity].
    now rewrite (contains_infix _ a b c E) in H.
  - destruct (contains [nl; nl] c) eqn:E; [|reflexivity].
    rewrite app_assoc in H.
    now rewrite (contains_app_r _ (a ++ b) c E) in H.
Qed.

Lemma bold_shape (x pre out : str) :
  contains [nl; nl] pre = false -> contains [nl; nl] x = false ->
  contains [nl; nl] out = false ->
  contains [nl; nl] (pre ++ bold x ++ out) = false /\
  ends_nl (pre ++ bold x ++ out) = ends_nl out.
Proof.
  intros Hp Hx Ho. unfold bold. split.
  - change (pre ++ ($"<b>" ++ x ++ $"</b>") ++ out)
      with (pre ++ "<"%char :: ["b"%char] ++ ">"%char
                :: (x ++ $"</b>") ++ out).
    rewrite contains_nlnl_sep, Hp by reflexivity.
    rewrite contains_nlnl_sep by reflexivity.
    rewrite <- app_assoc.
    change (x ++ $"</b>" ++ out)
      with (x ++ "<"%char :: $"/b" ++ ">"%char :: out).
    rewrite contains_nlnl_sep, Hx by reflexivity.
    rewrite contains_nlnl_sep, Ho by reflexivity.
    reflexivity.
  - assert (E : pre ++ ($"<b>" ++ x ++ $"</b>") ++ out
                = (pre ++ $"<b>" ++ x ++ $"</b") ++ ">"%char :: out).
    { rewrite <- !app_assoc. reflexivity. }
    rewrite E, ends_nl_app by discriminate.
    destruct out; reflexivity.
Qed.

Lemma replaced_shape (x s out : str) :
  replaced x (fun _ => bold x) s out ->
  contains [nl; nl] s = false ->
  contains [nl; nl] out = false /\ (ends_nl out = true -> ends_nl s = true).
Proof.
  induction 1 as [s Ho | pre m post out Hp Hl Hm Hr IH]; intros Hs.
  - now split.
  - destruct (contains_nlnl_parts _ _ _ Hs) as (H1 & H2 & H3).
    destruct (IH H3) as [Ho He].
    assert (Hx : contains [nl; nl] x = false).
    { now rewrite <- contains_nlnl_lower, <- Hm, contains_nlnl_lower. }
    destruct (bold_shape x pre out H1 Hx Ho) as [B1 B2].
    split; [exact B1|]. rewrite B2. intros E.
    pose proof (ends_nl_true_nonempty _ (He E)) as Hne.
    rewrite app_assoc, ends_nl_app by exact Hne. auto.
Qed.

Lemma chain_shape (kws : list str) (s out : str) :
  chain kws s out ->
  contains [nl; nl] s = false ->
  contains [nl; nl] out = false /\ (ends_nl out = true -> ends_nl s = true).
Proof.
  induction 1 as [s | kw kws s s' out Hr Hc IH]; intros Hs; [now split|].
  destruct (replaced_shape _ _ _ Hr Hs) as [H1 H2].
  destruct (IH H1) as [H3 H4]. split; auto.
Qed.

Lemma bold_paragraph_shape (C : str) (used used' : bool) (p out : str) :
  C <> [] -> no_backslash C = true ->
  bold_paragraph C used p = Some (used', out) ->
  contains [nl; nl] p = false ->
  contains [nl; nl] out = false /\ (ends_nl out = true -> ends_nl p = true).
Proof.
  intros Hne Hb H Hp. unfold bold_paragraph in H.
  destruct (bold_company C used p) as [[u b]|] eqn:Ec; [|discriminate].
  destruct (bold_keywords_chain b) as (o & Ho & Hc). rewrite Ho in H.
  injection H as <- <-.
  assert (Hbs : contains [nl; nl] b = false /\
                (ends_nl b = true -> ends_nl p = true)).
  { unfold bold_company in Ec.
    destruct (negb used && occurs_in p C).
    - destruct (sub_bold_replaced C C p Hne Hb) as (b' & Hs & Hr).
      rewrite Hs in Ec. injection Ec as <- <-.
      exact (replaced_shape _ _ _ Hr Hp).
    - injection Ec as <- <-. now split. }
  destruct Hbs as [B1 B2].
  destruct (chain_shape _ _ _ Hc B1) as [O1 O2]. split; auto.
Qed.

Lemma bold_paragraphs_ok (C : str) (used : bool) (ps outs : list str) :
  C <> [] -> no_backslash C = true ->
  bold_paragraphs C used ps = Some outs ->
  paragraphs_ok ps = true ->
  paragraphs_ok outs = true /\ List.length outs = List.length ps.
Proof.
  intros Hne Hb. revert used outs.
  induction ps as [|p rest IH]; intros used outs H Hok; [discriminate|].
  cbn [bold_paragraphs] in H.
  destruct (bold_paragraph C used p) as [[u o]|] eqn:Ep; [|discriminate].
  destruct (bold_paragraphs C u rest) as [os|] eqn:Er; [|discriminate].
  injection H as <-.
  destruct rest as [|q qs].
  - injection Er as <-. cbn [paragraphs_ok] in *.
    apply negb_true_iff in Hok.
    destruct (bold_paragraph_shape _ _ _ _ _ Hne Hb Ep Hok) as [H1 _].
    now rewrite H1.
  - change (paragraphs_ok (p :: q :: qs))
      with (negb (contains [nl; nl] p) && negb (ends_nl p)
            && paragraphs_ok (q :: qs)) in Hok.
    apply andb_true_iff in Hok as [Hok H3].
    apply andb_true_iff in Hok as [H1 H2].
    apply negb_true_iff in H1, H2.
    destruct (IH u os Er H3) as [I1 I2].
    destruct (bold_paragraph_shape _ _ _ _ _ Hne Hb Ep H1) as [S1 S2].
    split; [|cbn [List.length]; now rewrite I2].
    destruct os as [|o' os']; [discriminate|].
    change (paragraphs_ok (o :: o' :: os'))
      with (negb (contains [nl; nl] o) && negb (ends_nl o)
            && paragraphs_ok (o' :: os')).
    rewrite S1, I1. destruct (ends_nl o); [|reflexivity].
    now rewrite S2 in H2.
Qed.

End Shape.

(** X1.  Splitting a text at the blank-line separator and joining the
    pieces with the separator gives the text back, for every text. *)
Theorem split_then_join (s : str) : join_nn (split_nn s) = s.
Proof. apply join_split. Qed.

(** X2.  What [split] returns always has the shape [paragraphs_ok]: at
    least one piece, no separator inside a piece, and no piece but the
    last ending in a line feed. *)
Theorem split_shape (s : str) :
  split_nn s <> [] /\ paragraphs_ok (split_nn s) = true /\
  (forall p, In p (split_nn s) -> contains [nl; nl] p = false).
Proof.
  split; [apply split_nn_nonempty|]. split; [apply split_nn_ok|].
  pose proof (split_nn_ok s) as H.
  induction (split_nn s) as [|q qs IH]; intros p Hin; [destruct Hin|].
  destruct qs as [|q' qs'].
  - destruct Hin as [<-|[]]. cbn [paragraphs_ok] in H.
    now apply negb_true_iff.
  - change (paragraphs_ok (q :: q' :: qs'))
      with (negb (contains [nl; nl] q) && negb (ends_nl q)
            && paragraphs_ok (q' :: qs')) in H.
    apply andb_true_iff in H as [H H3]. apply andb_true_iff in H as [H1 H2].
    destruct Hin as [<-|Hin]; [now apply negb_true_iff | now apply IH].
Qed.

Lemma split_shape_witness :
  let s := $"a" ++ [nl; nl; nl] ++ $"b" ++ [nl; nl] in
  split_nn s = [ $"a"; nl :: $"b"; [] ] /\
  In (nl :: $"b") (split_nn s) /\
  contains [nl; nl] (nl :: $"b") = false.
Proof.
  intros s.
  assert (Hin : In (nl :: $"b") (split_nn s)) by (right; left; reflexivity).
  split; [reflexivity|]. split; [exact Hin|].
  exact (proj2 (proj2 (split_shape s)) (nl :: $"b") Hin).
Defined.

(** X3.  On every list of pieces of that shape, joining with the separator
    and splitting again gives the list back. *)
Theorem join_then_split (ps : list str) :
  paragraphs_ok ps = true ->
  split_nn (join_nn ps) = ps.
Proof. apply split_join. Qed.

Lemma join_then_split_witness :
  let ps := [ $"Dear team,"; nl :: $"second"; []; $"last" ++ [nl] ] in
  paragraphs_ok ps = true /\
  split_nn (join_nn ps) = ps.
Proof.
  intros ps. split; [reflexivity|].
  exact (join_then_split ps eq_refl).
Defined.

(** X4.  With a non-empty company name that holds no backslash, the pass
    returns a text with the same paragraph structure: splitting the output
    gives exactly the processed paragraphs, one per input paragraph, in
    order. *)
Theorem pass_keeps_paragraphs (T C R : str) :
  C <> [] -> no_backslash C = true ->
  apply_programmatic_bolding T C = Some R ->
  bold_paragraphs C false (split_nn T) = Some (split_nn R) /\
  List.length (split_nn R) = List.length (split_nn T).
Proof.
  intros Hne Hb H. unfold apply_programmatic_bolding in H.
  destruct (bold_paragraphs C false (split_nn T)) as [outs|] eqn:E;
    [|discriminate].
  injection H as <-.
  destruct (bold_paragraphs_ok C false (split_nn T) outs Hne Hb E
              (split_nn_ok T)) as [Hok Hlen].
  now rewrite (split_join outs Hok).
Qed.

Lemma pass_keeps_paragraphs_witness :
  let T := $"We value integrity." ++ [nl; nl] ++
           $"At Acme Corp we do month-end closure and MIS work." in
  let R := $"We value integrity." ++ [nl; nl] ++
           $"At <b>Acme Corp</b> we do <b>month-end closure</b> and <b>MIS</b> work." in
  let C := $"Acme Corp" in
  C <> [] /\ no_backslash C = true /\
  apply_programmatic_bolding T C = Some R /\
  bold_paragraphs C false (split_nn T) = Some (split_nn R) /\
  List.length (split_nn R) = List.length (split_nn T).
Proof.
  intros T R C.
  assert (Hne : C <> []) by discriminate.
  split; [exact Hne|]. split; [reflexivity|]. split; [reflexivity|].
  exact (pass_keeps_paragraphs T C R Hne eq_refl eq_refl).
Defined.

(** X5.  On download the edited text goes through the pass and the result
    into the assembly.  With a non-empty, backslash-free company name the
    pass returns a text, and the element list assembled from it has the
    header, the closing and exactly one body block per paragraph of the
    edited text.  (Whether the rendering library accepts the markup of the
    blocks is outside this statement.) *)
Theorem download_block_count (today edited_text : str) (data : Data) :
  company data <> [] -> no_backslash (company data) = true ->
  exists final_text,
    apply_programmatic_bolding edited_text (company data) = Some final_text /\
    List.length (create_pdf today final_text data)
    = List.length (split_nn edited_text) + 2 /\
    List.length (filter is_body (create_pdf today final_text data))
    = List.length (split_nn edited_text).
Proof.
  intros Hne Hb.
  destruct (apply_total_plain edited_text (company data) Hb) as (R & HR).
  exists R. split; [exact HR|].
  unfold apply_programmatic_bolding in HR.
  destruct (bold_paragraphs (company data) false (split_nn edited_text))
    as [outs|] eqn:E; [|discriminate].
  injection HR as <-.
  destruct (bold_paragraphs_ok (company data) false (split_nn edited_text)
              outs Hne Hb E (split_nn_ok edited_text)) as [Hok Hlen].
  unfold create_pdf. rewrite (split_join outs Hok).
  cbn [app filter is_body p_style].
  rewrite filter_app. cbn [filter is_body p_style].
  rewrite app_nil_r.
  assert (F : forall l : list str,
            filter is_body (map (fun para => mkParagraph para Body) l)
            = map (fun para => mkParagraph para Body) l).
  { induction l as [|x l IH]; [reflexivity|]. simpl. now rewrite IH. }
  rewrite F. cbn [List.length]. rewrite length_app, !length_map, Hlen.
  cbn [List.length]. split; [lia | reflexivity].
Qed.

Lemma download_block_count_witness :
  let text := $"<b>Acme</b> hires." ++ [nl; nl] ++ $"MIS work." in
  let data := mkData $"Ann Lee" $"Acme" $"Analyst" [] [] [] in
  company data <> [] /\ no_backslash (company data) = true /\
  exists final_text,
    apply_programmatic_bolding text (company data) = Some final_text /\
    List.length (create_pdf $"04 March 2025" final_text data)
    = List.length (split_nn text) + 2 /\
    List.length (filter is_body (create_pdf $"04 March 2025" final_text data))
    = List.length (split_nn text).
Proof.
  intros text data.
  assert (Hne : company data <> []) by discriminate.
  split; [exact Hne|]. split; [reflexivity|].
  exact (download_block_count $"04 March 2025" text data Hne eq_refl).
Defined.

(** X6.  The body blocks of the assembled document carry the whole text:
    joining their texts with the blank-line separator gives the text that
    was passed in, and the header and the closing are the only other
    blocks. *)
Theorem document_body_is_text (today text : str) (data : Data) :
  join_nn (map p_text (filter is_body (create_pdf today text data))) = text /\
  map p_text (filter (fun p => negb (is_body p)) (create_pdf today text data))
  = [header_text today data; closing_text data].
Proof.
  unfold create_pdf. cbn [app filter is_body p_style negb].
  rewrite !filter_app. cbn [filter is_body p_style negb].
  assert (F : forall l : list str,
            filter is_body (map (fun para => mkParagraph para Body) l)
            = map (fun para => mkParagraph para Body) l).
  { induction l as [|x l IH]; [reflexivity|]. simpl. now rewrite IH. }
  assert (G : forall l : list str,
            filter (fun p => negb (is_body p))
                   (map (fun para => mkParagraph para Body) l) = []).
  { induction l as [|x l IH]; [reflexivity|]. simpl. now rewrite IH. }
  rewrite F, G, app_nil_r, map_map. cbn [p_text map app].
  rewrite map_id. split; [apply join_split | reflexivity].
Qed.

(** ** The company flag *)

Section Flag.

Variable C : str.

Lemma keywords_only_total (ps : list str) :
  exists os, keywords_only ps = Some os.
Proof.
  induction ps as [|p ps [os IH]]; [now exists []|].
  destruct (bold_keywords_chain p) as (o & Ho & _).
  exists (o :: os). cbn [keywords_only]. now rewrite Ho, IH.
Qed.

(** Once the flag is set, only the keyword step is left. *)
Lemma bold_paragraphs_flag_set (ps : list str) :
  bold_paragraphs C true ps = keywords_only ps.
Proof.
  induction ps as [|p ps IH]; [reflexivity|].
  cbn [bold_paragraphs keywords_only]. unfold bold_paragraph.
  rewrite bold_company_used. cbv beta iota.
  destruct (bold_keywords p); [|reflexivity].
  rewrite IH.
  destruct (keywords_only ps); reflexivity.
Qed.

Lemma bold_paragraphs_before (used : bool) (ps1 rest : list str) :
  (forall q, In q ps1 -> occurs_in q C = false) ->
  bold_paragraphs C used (ps1 ++ rest)
  = match keywords_only ps1, bold_paragraphs C used rest with
    | Some a, Some b => Some (a ++ b)
    | _, _ => None
    end.
Proof.
  induction ps1 as [|p ps IH]; intros H.
  - cbn [app keywords_only]. now destruct (bold_paragraphs C used rest).
  - cbn [app bold_paragraphs keywords_only]. unfold bold_paragraph.
    rewrite bold_company_absent by (apply H; now left). cbv beta iota.
    destruct (bold_keywords p); [|reflexivity].
    rewrite IH by (intros q Hq; apply H; now right).
    destruct (keywords_only ps); [|reflexivity].
    destruct (bold_paragraphs C used rest); reflexivity.
Qed.

Lemma bold_paragraphs_absent (used : bool) (ps : list str) :
  (forall q, In q ps -> occurs_in q C = false) ->
  bold_paragraphs C used ps = keywords_only ps.
Proof.
  intros H. rewrite <- (app_nil_r ps) at 1.
  rewrite (bold_paragraphs_before used ps [] H).
  cbn [bold_paragraphs].
  destruct (keywords_only ps); [now rewrite app_nil_r | reflexivity].
Qed.

Lemma first_holder (ps : list str) :
  existsb (fun p => occurs_in p C) ps = true ->
  exists ps1 p ps2,
    ps = ps1 ++ p :: ps2 /\
    (forall q, In q ps1 -> occurs_in q C = false) /\
    occurs_in p C = true.
Proof.
  induction ps as [|x ps IH]; intros H; [discriminate|].
  cbn [existsb] in H. destruct (occurs_in x C) eqn:E.
  - exists [], x, ps. repeat split; trivial. intros q [].
  - destruct (IH H) as (ps1 & p & ps2 & -> & H1 & H2).
    exists (x :: ps1), p, ps2. repeat split; trivial.
    intros q [<-|Hq]; auto.
Qed.

End Flag.

(** X7.  The company step runs in one paragraph only, the first one, in
    order, in which the name occurs: the paragraphs before it and all
    paragraphs after it, whether or not they hold the name, get the keyword
    step alone. *)
Theorem company_step_in_first_holder_only
  (T C : str) (ps1 : list str) (p : str) (ps2 : list str) :
  split_nn T = ps1 ++ p :: ps2 ->
  (forall q, In q ps1 -> occurs_in q C = false) ->
  occurs_in p C = true ->
  exists o1 o2,
    keywords_only ps1 = Some o1 /\ keywords_only ps2 = Some o2 /\
    apply_programmatic_bolding T C
    = option_map (fun r => join_nn (o1 ++ snd r :: o2))
                 (bold_paragraph C false p).
Proof.
  intros Hs H1 Hp.
  destruct (keywords_only_total ps1) as (o1 & E1).
  destruct (keywords_only_total ps2) as (o2 & E2).
  exists o1, o2. split; [exact E1|]. split; [exact E2|].
  unfold apply_programmatic_bolding.
  rewrite Hs, (bold_paragraphs_before C false ps1 (p :: ps2) H1), E1.
  cbn [bold_paragraphs].
  assert (Hu : forall u b, bold_paragraph C false p = Some (u, b) -> u = true).
  { unfold bold_paragraph, bold_company. rewrite Hp. cbn [negb andb].
    intros u b H.
    destruct (Re.sub C (bold C) p); [|discriminate].
    destruct (bold_keywords s); [|discriminate]. now injection H as <- _. }
  destruct (bold_paragraph C false p) as [[u b]|] eqn:Eb; [|reflexivity].
  rewrite (Hu u b eq_refl), bold_paragraphs_flag_set, E2. reflexivity.
Qed.

Lemma company_step_in_first_holder_only_witness :
  let T := $"We value integrity." ++ [nl; nl] ++ $"Acme grows." ++ [nl; nl]
           ++ $"Join Acme." in
  let C := $"Acme" in
  split_nn T = [ $"We value integrity." ] ++ $"Acme grows." :: [ $"Join Acme." ] /\
  (forall q, In q [ $"We value integrity." ] -> occurs_in q C = false) /\
  occurs_in $"Acme grows." C = true /\
  apply_programmatic_bolding T C
  = Some ($"We value integrity." ++ [nl; nl] ++ $"<b>Acme</b> grows."
          ++ [nl; nl] ++ $"Join Acme.") /\
  exists o1 o2,
    keywords_only [ $"We value integrity." ] = Some o1 /\
    keywords_only [ $"Join Acme." ] = Some o2 /\
    apply_programmatic_bolding T C
    = option_map (fun r => join_nn (o1 ++ snd r :: o2))
                 (bold_paragraph C false $"Acme grows.").
Proof.
  intros T C.
  assert (H1 : forall q, In q [ $"We value integrity." ] ->
                         occurs_in q C = false).
  { intros q [<-|[]]. reflexivity. }
  split; [reflexivity|]. split; [exact H1|]. split; [reflexivity|].
  split; [reflexivity|].
  exact (company_step_in_first_holder_only T C [ $"We value integrity." ]
           $"Acme grows." [ $"Join Acme." ] eq_refl H1 eq_refl).
Defined.

(** X8.  When the company name occurs in no paragraph, the pass cannot
    raise, whatever the name holds: the result is the keyword step on every
    paragraph. *)
Theorem absent_company_never_raises (T C : str) :
  (forall p, In p (split_nn T) -> occurs_in p C = false) ->
  exists os,
    keywords_only (split_nn T) = Some os /\
    apply_programmatic_bolding T C = Some (join_nn os).
Proof.
  intros H. destruct (keywords_only_total (split_nn T)) as (os & E).
  exists os. split; [exact E|]. unfold apply_programmatic_bolding.
  now rewrite (bold_paragraphs_absent C false (split_nn T) H), E.
Qed.

Lemma absent_company_never_raises_witness :
  let T := $"We do MIS work." ++ [nl; nl] ++ $"Kind regards." in
  let C := $"R\D" in
  (forall p, In p (split_nn T) -> occurs_in p C = false) /\
  apply_programmatic_bolding T C
  = Some ($"We do <b>MIS</b> work." ++ [nl; nl] ++ $"Kind regards.") /\
  exists os,
    keywords_only (split_nn T) = Some os /\
    apply_programmatic_bolding T C = Some (join_nn os).
Proof.
  intros T C.
  assert (H : forall p, In p (split_nn T) -> occurs_in p C = false).
  { intros p [<-|[<-|[]]]; reflexivity. }
  split; [exact H|]. split; [reflexivity|].
  exact (absent_company_never_raises T C H).
Defined.

(** X9.  When the replacement template built from the company name is one
    that [re] rejects, the pass raises as soon as one paragraph holds the
    name, whatever else the text holds. *)
Theorem bad_template_raises_when_present (T C p : str) :
  Re.parse_template (bold C) = None ->
  In p (split_nn T) -> occurs_in p C = true ->
  apply_programmatic_bolding T C = None.
Proof.
  intros Hbad Hin Hp.
  assert (He : existsb (fun q => occurs_in q C) (split_nn T) = true).
  { apply existsb_exists. now exists p. }
  destruct (first_holder C (split_nn T) He) as (ps1 & q & ps2 & Hs & H1 & Hq).
  unfold apply_programmatic_bolding.
  rewrite Hs, (bold_paragraphs_before C false ps1 (q :: ps2) H1).
  cbn [bold_paragraphs]. unfold bold_paragraph, bold_company.
  rewrite Hq. cbn [negb andb]. unfold Re.sub. rewrite Hbad.
  now destruct (keywords_only ps1).
Qed.

Lemma bad_template_raises_when_present_witness :
  let T := $"We value integrity." ++ [nl; nl] ++ $"See C:\Users for MIS." in
  let C := $"C:\Users" in
  Re.parse_template (bold C) = None /\
  In $"See C:\Users for MIS." (split_nn T) /\
  occurs_in $"See C:\Users for MIS." C = true /\
  apply_programmatic_bolding T C = None.
Proof.
  intros T C.
  assert (Hin : In $"See C:\Users for MIS." (split_nn T))
    by (right; left; reflexivity).
  split; [reflexivity|]. split; [exact Hin|]. split; [reflexivity|].
  exact (bad_template_raises_when_present T C $"See C:\Users for MIS."
           eq_refl Hin eq_refl).
Defined.

(** ** Edge cases of the substitution *)

Lemma sub_go_empty_needle (tpl : list Re.titem) (s : str) :
  Re.sub_go [] tpl 0 s
  = flat_map (fun c => Re.expand tpl [] ++ [c]) s ++ Re.expand tpl [].
Proof.
  induction s as [|c t IH]; [reflexivity|].
  cbn [Re.sub_go Re.match_at List.length firstn flat_map].
  rewrite IH, <- !app_assoc. reflexivity.
Qed.

(** X10.  With the empty string as company name the company step fires in
    the first paragraph, whatever it holds, and puts an empty pair of
    markers before every character and at the end. *)
Theorem empty_company_marks_every_position (p : str) :
  bold_company [] false p
  = Some (true, flat_map (fun c => $"<b></b>" ++ [c]) p ++ $"<b></b>").
Proof.
  unfold bold_company. rewrite occurs_in_nil_needle. cbn [negb andb].
  rewrite sub_bold_plain by reflexivity.
  rewrite sub_go_empty_needle, expand_plain. reflexivity.
Qed.

(** ** The submission run *)

(** X11.  A submission changes the session state all at once or not at
    all: unless the run finishes, the state is what it was; when it
    finishes, both keys are set, the data from the form.  The service is
    called at most once. *)
Theorem submit_updates_session_atomically
  (client : str -> option str) (f : Form) (s : Session) :
  let r := on_submit client f s in
  (status r <> Finished -> session r = s) /\
  (status r = Finished ->
   exists bolded,
     s_draft (session r) = Some bolded /\
     s_data (session r)
     = Some (mkData (f_name f) (f_company f) (f_role f)
                    (f_email f) (f_mobile f) (f_linkedin f))) /\
  List.length (events r) <= 1.
Proof.
  unfold on_submit.
  destruct (not_file (f_resume f) || not_str (f_name f)
            || not_str (f_company f) || not_str (f_role f)).
  - cbn. repeat split; [discriminate | lia].
  - destruct (f_resume f) as [resume|].
    + unfold generate_cover_letter.
      destruct (option_map strip _) as [draft|].
      * destruct (apply_programmatic_bolding draft (f_company f)) as [b|].
        -- cbn. repeat split; [congruence | eauto | lia].
        -- cbn. repeat split; [discriminate | lia].
      * cbn. repeat split; [discriminate | lia].
    + cbn. repeat split; [discriminate | lia].
Qed.

Lemma submit_updates_session_atomically_witness :
  let cv := [Some $"Chartered Accountant"] in
  let old := mkSession (Some $"old draft") None in
  let f := mkForm (Some cv) None $"Ann Lee" $"R\D" $"Analyst" StartupGrowth
                  [] [] [] in
  let failing := on_submit (fun _ => Some $"We do R\D here.") f old in
  let passing := on_submit (fun _ => Some $" We do MIS here. ") f old in
  (status failing <> Finished /\ session failing = old) /\
  (status passing = Finished /\
   s_draft (session passing) = Some $"We do <b>MIS</b> here." /\
   exists bolded,
     s_draft (session passing) = Some bolded /\
     s_data (session passing)
     = Some (mkData (f_name f) (f_company f) (f_role f)
                    (f_email f) (f_mobile f) (f_linkedin f))).
Proof.
  intros cv old f failing passing.
  assert (H1 : status failing <> Finished) by discriminate.
  split.
  - split; [exact H1|].
    exact (proj1 (submit_updates_session_atomically
                    (fun _ => Some $"We do R\D here.") f old) H1).
  - split; [reflexivity|]. split; [reflexivity|].
    exact (proj1 (proj2 (submit_updates_session_atomically
                           (fun _ => Some $" We do MIS here. ") f old))
             eq_refl).
Defined.

(** ** The download name *)

(** X12.  The name of the downloaded file holds no space, wherever the
    candidate name has some, and is as long as the candidate name plus the
    seventeen characters of the fixed ending. *)
Theorem file_name_has_no_space (data : Data) :
  forallb (fun c => negb (Ascii.eqb c " ")) (file_name data) = true /\
  List.length (file_name data) = List.length (name data) + 17.
Proof.
  unfold file_name, replace_spaces. split.
  - rewrite forallb_app. apply andb_true_iff. split; [|reflexivity].
    induction (name data) as [|c t IH]; [reflexivity|].
    cbn [map forallb]. rewrite IH, andb_true_r.
    destruct (Ascii.eqb c " ") eqn:E; [reflexivity|]. now rewrite E.
  - now rewrite length_app, length_map.
Qed.

(** ** Text extraction *)

Section Extraction.

Lemma lstrip_nil_iff (s : str) :
  lstrip s = [] <-> forallb is_space s = true.
Proof.
  induction s as [|c t IH]; [now split|].
  cbn [lstrip forallb]. destruct (is_space c); [exact IH|].
  split; discriminate.
Qed.

Lemma lstrip_head (s : str) (c : ascii) (t : str) :
  lstrip s = c :: t -> is_space c = false.
Proof.
  induction s as [|x s IH]; [discriminate|].
  cbn [lstrip]. destruct (is_space x) eqn:E; [exact IH|].
  intros H. injection H as <- _. exact E.
Qed.

Lemma lstrip_snoc (l : str) (x : ascii) :
  is_space x = false -> exists w, lstrip (l ++ [x]) = w ++ [x].
Proof.
  intros Hx. induction l as [|c l [w IH]].
  - exists []. cbn [app lstrip]. now rewrite Hx.
  - cbn [app lstrip]. destruct (is_space c).
    + now exists w.
    + now exists (c :: l).
Qed.

Lemma forallb_rev (f : ascii -> bool) (s : str) :
  forallb f (rev s) = forallb f s.
Proof.
  induction s as [|c t IH]; [reflexivity|].
  cbn [rev forallb]. rewrite forallb_app, IH. cbn [forallb].
  rewrite andb_true_r. apply andb_comm.
Qed.

Lemma lstrip_all_space (s : str) :
  forallb is_space (lstrip s) = true -> forallb is_space s = true.
Proof.
  induction s as [|c t IH]; [trivial|].
  cbn [lstrip forallb]. destruct (is_space c) eqn:E; [exact IH|].
  cbn [forallb]. now rewrite E.
Qed.

Lemma strip_nil_iff (s : str) :
  strip s = [] <-> forallb is_space s = true.
Proof.
  unfold strip, rstrip. split.
  - intros H. apply (f_equal (@rev ascii)) in H.
    rewrite rev_involutive in H. cbn [rev] in H.
    apply lstrip_nil_iff in H. rewrite forallb_rev in H.
    now apply lstrip_all_space.
  - intros H. apply lstrip_nil_iff in H. now rewrite H.
Qed.

Lemma strip_first (s : str) (c : ascii) (t : str) :
  strip s = c :: t -> is_space c = false.
Proof.
  unfold strip, rstrip. intros H.
  destruct (lstrip s) as [|x u] eqn:E; [discriminate|].
  pose proof (lstrip_head s x u E) as Hx.
  cbn [rev] in H. destruct (lstrip_snoc (rev u) x Hx) as (w & Hw).
  rewrite Hw, rev_app_distr in H. cbn [rev app] in H.
  now injection H as <- _.
Qed.

Lemma strip_last (s t : str) (c : ascii) :
  strip s = t ++ [c] -> is_space c = false.
Proof.
  unfold strip, rstrip. intros H.
  apply (f_equal (@rev ascii)) in H.
  rewrite rev_involutive, rev_app_distr in H. cbn [rev app] in H.
  exact (lstrip_head _ _ _ H).
Qed.

Lemma extract_fold (pages : pdf) (acc : str) :
  fold_left
    (fun text page =>
       match page with
       | Some (c :: page_text) => text ++ (c :: page_text) ++ [nl]
       | _ => text
       end) pages acc
  = acc ++ flat_map page_line pages.
Proof.
  revert acc. induction pages as [|p ps IH]; intros acc.
  - cbn. now rewrite app_nil_r.
  - cbn [fold_left flat_map]. rewrite IH.
    destruct p as [[|c t]|]; cbn [page_line];
      now rewrite ?app_nil_l, <- ?app_assoc.
Qed.

Lemma extract_text_pages (pages : pdf) :
  extract_text pages = strip (flat_map page_line pages).
Proof. unfold extract_text. now rewrite extract_fold. Qed.

Lemma page_line_blank (page : option str) :
  forallb is_space (page_line page) = page_blank page.
Proof.
  destruct page as [[|c t]|]; try reflexivity.
  cbn [page_line page_blank]. rewrite forallb_app. cbn [forallb].
  now rewrite !andb_true_r.
Qed.

Lemma pages_blank (pages : pdf) :
  forallb is_space (flat_map page_line pages) = forallb page_blank pages.
Proof.
  induction pages as [|p ps IH]; [reflexivity|].
  cbn [flat_map forallb]. now rewrite forallb_app, page_line_blank, IH.
Qed.

End Extraction.

(** X13.  The extracted text is empty exactly when every page is blank: it
    has no text layer ([None]), an empty one, or one made of whitespace
    only. *)
Theorem extract_text_empty_iff_blank (pages : pdf) :
  extract_text pages = [] <-> forallb page_blank pages = true.
Proof.
  rewrite extract_text_pages, strip_nil_iff, pages_blank. reflexivity.
Qed.

Lemma extract_text_empty_iff_blank_witness :
  let blank := [None; Some $"  "; Some []; Some [nl]] in
  let full := [None; Some $" Chartered Accountant "; Some $"Audit"] in
  (forallb page_blank blank = true /\ extract_text blank = []) /\
  (extract_text full = $"Chartered Accountant " ++ nl :: $"Audit" /\
   forallb page_blank full = false).
Proof.
  intros blank full. split.
  - split; [reflexivity|].
    exact (proj2 (extract_text_empty_iff_blank blank) eq_refl).
  - split; [reflexivity|].
    destruct (forallb page_blank full) eqn:E; [|reflexivity].
    pose proof (proj2 (extract_text_empty_iff_blank full) E) as H.
    discriminate H.
Defined.

(** X14.  The extracted text never starts and never ends with a whitespace
    character. *)
Theorem extract_text_is_trimmed (pages : pdf) :
  (forall c t, extract_text pages = c :: t -> is_space c = false) /\
  (forall t c, extract_text pages = t ++ [c] -> is_space c = false).
Proof.
  rewrite extract_text_pages. split.
  - intros c t. apply strip_first.
  - intros t c. apply strip_last.
Qed.

Lemma extract_text_is_trimmed_witness :
  let pages := [Some $"  Audit"; None; Some $"MIS  "] in
  extract_text pages = "A"%char :: $"udit" ++ nl :: $"MIS" /\
  is_space "A" = false /\
  extract_text pages = ($"Audit" ++ nl :: $"MI") ++ ["S"%char] /\
  is_space "S" = false.
Proof.
  intros pages.
  split; [reflexivity|]. split.
  - exact (proj1 (extract_text_is_trimmed pages) "A"%char _ eq_refl).
  - split; [reflexivity|].
    exact (proj2 (extract_text_is_trimmed pages) _ "S"%char eq_refl).
Defined.

(** X15.  Pages without text are skipped: dropping every page whose
    extraction is [None] or empty leaves the extracted text as it is, and
    the text is the page texts, each followed by a line feed, trimmed at
    both ends. *)
Theorem extract_text_skips_empty_pages (pages : pdf) :
  extract_text
    (filter (fun page => match page with
                         | Some (_ :: _) => true
                         | _ => false
                         end) pages)
  = extract_text pages /\
  extract_text pages = strip (flat_map page_line pages).
Proof.
  split; [|apply extract_text_pages].
  rewrite !extract_text_pages. f_equal.
  induction pages as [|p ps IH]; [reflexivity|].
  destruct p as [[|c t]|]; cbn [filter flat_map page_line app];
    now rewrite IH.
Qed.

(** ** Occurrences and markers *)

Section Occurrences.

(** An occurrence cannot straddle a character it does not hold. *)
Lemma occurrence_split (pre m post A B : str) (c : ascii) :
  pre ++ m ++ post = A ++ c :: B -> ~ In c m ->
  (exists post', A = pre ++ m ++ post' /\ post = post' ++ c :: B) \/
  (exists pre', B = pre' ++ m ++ post /\ pre = A ++ c :: pre').
Proof.
  intros E Hc. rewrite app_assoc in E.
  apply app_eq_app in E as [l [[E1 E2]|[E1 E2]]].
  - destruct l as [|x l'].
    + left. exists []. cbn [app] in E2. rewrite app_nil_r in E1.
      rewrite app_nil_r. now rewrite <- E1, E2.
    + cbn [app] in E2. injection E2 as <- E2.
      apply app_eq_app in E1 as [l2 [[F1 F2]|[F1 F2]]].
      * destruct l2 as [|y l2'].
        -- cbn [app] in F2. exfalso. apply Hc. rewrite <- F2. now left.
        -- cbn [app] in F2. injection F2 as <- F2.
           right. exists l2'. split; [|exact F1].
           now rewrite E2, F2, <- app_assoc.
      * exfalso. apply Hc. rewrite F2. apply in_or_app. right. now left.
  - left. exists l. split; [|exact E2]. now rewrite E1, <- app_assoc.
Qed.

Lemma tag_char_lower (c : ascii) :
  tag_char c = true -> lower_char c = c.
Proof.
  unfold tag_char. intros H.
  repeat (apply orb_true_iff in H as [H|H]);
    apply Ascii.eqb_eq in H; subst c; reflexivity.
Qed.

Lemma tagfree_lower (m kw : str) :
  lower m = lower kw -> tagfree m = tagfree kw.
Proof. unfold tagfree. now intros ->. Qed.

Lemma tagfree_sep (m : str) (c : ascii) :
  tagfree m = true -> tag_char c = true -> ~ In c m.
Proof.
  unfold tagfree. intros Hm Hc Hin.
  rewrite forallb_forall in Hm.
  specialize (Hm (lower_char c)).
  rewrite (tag_char_lower c Hc), Hc in Hm.
  discriminate Hm. rewrite <- (tag_char_lower c Hc).
  now apply in_map.
Qed.

(** A non-empty marker-free span does not fit among marker characters. *)
Lemma tagfree_inside (m A pre post : str) :
  tagfree m = true -> m <> [] -> A = pre ++ m ++ post ->
  forallb tag_char A = true -> False.
Proof.
  intros Hm Hne -> HA. destruct m as [|c m']; [contradiction|].
  rewrite !forallb_app in HA. cbn [forallb] in HA.
  apply andb_true_iff in HA as [_ HA].
  apply andb_true_iff in HA as [HA _].
  apply andb_true_iff in HA as [HA _].
  apply (tagfree_sep (c :: m') c Hm HA). now left.
Qed.

Lemma no_start_inside (kw a m b rest : str) :
  no_start kw (a ++ m ++ b) rest = true ->
  m <> [] -> lower m = lower kw -> False.
Proof.
  intros H Hne Hm. induction a as [|x a IH].
  - destruct m as [|c m']; [contradiction|].
    cbn [app no_start] in H. apply andb_true_iff in H as [H _].
    apply negb_true_iff in H.
    assert (Eq : c :: (m' ++ b) ++ rest = (c :: m') ++ b ++ rest)
      by (cbn [app]; now rewrite <- app_assoc).
    rewrite Eq in H.
    rewrite (match_at_span kw (c :: m') (b ++ rest)) in H;
      [discriminate | | exact Hm].
    now rewrite <- (lower_length (c :: m')), Hm, lower_length.
  - cbn [app no_start] in H. apply andb_true_iff in H as [_ H]. auto.
Qed.

Lemma span_nonempty (m kw : str) :
  kw <> [] -> lower m = lower kw -> m <> [].
Proof.
  intros Hne Hm ->. destruct kw; [contradiction | discriminate].
Qed.

Lemma span_length (m kw : str) :
  lower m = lower kw -> List.length m = List.length kw.
Proof.
  intros H. now rewrite <- (lower_length m), H, lower_length.
Qed.

Lemma whole_span (kw p m q : str) :
  kw = p ++ m ++ q -> List.length m = List.length kw -> p = [] /\ q = [].
Proof.
  intros -> H. rewrite !length_app in H.
  split; [destruct p | destruct q]; trivial; cbn [List.length] in H; lia.
Qed.

(** After a keyword has been replaced throughout, each of its occurrences
    is one that the replacement wrote. *)
Lemma replaced_wraps (kw s s' : str) :
  kw <> [] -> tagfree kw = true ->
  replaced kw (fun _ => bold kw) s s' ->
  all_wrapped kw s'.
Proof.
  intros Hne Htf. induction 1 as [s Ho | pre0 m0 post0 out Hp Hl Hm0 Hr IH].
  - intros pre m post -> Hm. exfalso.
    rewrite (occurs_in_infix kw pre m post (occurs_in_span kw m Hm)) in Ho.
    discriminate.
  - intros pre m post E Hm.
    assert (Hmt : tagfree m = true) by now rewrite (tagfree_lower m kw Hm).
    pose proof (span_nonempty m kw Hne Hm) as Hmne.
    unfold bold in E. symmetry in E.
    change (pre0 ++ ($"<b>" ++ kw ++ $"</b>") ++ out)
      with (pre0 ++ "<"%char :: ["b"%char] ++ ">"%char
                 :: (kw ++ $"</b>") ++ out) in E.
    apply occurrence_split in E as [(post' & E1 & E2)|(p1 & E1 & E2)];
      [| | apply (tagfree_sep m _ Hmt); reflexivity].
    { exfalso. rewrite E1 in Hp.
      exact (no_start_inside kw pre m post' _ Hp Hmne Hm). }
    symmetry in E1.
    apply occurrence_split in E1 as [(post' & F1 & F2)|(p2 & F1 & F2)];
      [| | apply (tagfree_sep m _ Hmt); reflexivity].
    { exfalso. exact (tagfree_inside m _ p1 post' Hmt Hmne F1 eq_refl). }
    symmetry in F1. rewrite <- app_assoc in F1.
    change (kw ++ $"</b>" ++ out)
      with (kw ++ "<"%char :: $"/b" ++ ">"%char :: out) in F1.
    apply occurrence_split in F1 as [(post' & G1 & G2)|(p3 & G1 & G2)];
      [| | apply (tagfree_sep m _ Hmt); reflexivity].
    { destruct (whole_span kw p2 m post' G1 (span_length m kw Hm))
        as [-> ->].
      cbn [app] in G1. rewrite app_nil_r in G1. subst m.
      split; [reflexivity|]. split.
      - exists pre0. now rewrite E2, F2.
      - exists out. now rewrite G2. }
    symmetry in G1.
    apply occurrence_split in G1 as [(post' & K1 & K2)|(p4 & K1 & K2)];
      [| | apply (tagfree_sep m _ Hmt); reflexivity].
    { exfalso. exact (tagfree_inside m _ p3 post' Hmt Hmne K1 eq_refl). }
    destruct (IH p4 m post K1 Hm) as (W1 & (q & W2) & W3).
    split; [exact W1|]. split; [|exact W3].
    exists (pre0 ++ $"<b>" ++ kw ++ $"</b>" ++ q).
    rewrite E2, F2, G2, K2, W2. rewrite <- !app_assoc. reflexivity.
Qed.

End Occurrences.

Section Keeping.

Lemma tagfree_chars (m : str) (c : ascii) :
  tagfree m = true -> In c m -> tag_char c = false.
Proof.
  intros Hm Hin. destruct (tag_char c) eqn:E; [|reflexivity].
  exfalso. exact (tagfree_sep m c Hm E Hin).
Qed.

(** A marker that ends where a marker-free character stands before it
    lies after that character. *)
Lemma marker_after (X pre q tag : str) (c0 : ascii) :
  X ++ c0 :: pre = q ++ tag -> forallb tag_char tag = true ->
  tag_char c0 = false ->
  exists q', pre = q' ++ tag.
Proof.
  intros E Ht Hc.
  assert (Hn : ~ In c0 tag).
  { intros Hin. rewrite forallb_forall in Ht.
    rewrite (Ht c0 Hin) in Hc. discriminate. }
  assert (E' : q ++ tag ++ [] = X ++ c0 :: pre)
    by now rewrite app_nil_r.
  apply occurrence_split in E' as [(post' & _ & F)|(p & F & _)];
    [|exists p; now rewrite app_nil_r in F | exact Hn].
  destruct post'; discriminate.
Qed.

(** A marker that starts where a marker-free character follows lies
    before that character. *)
Lemma marker_before (post' B z tag : str) (c1 : ascii) :
  post' ++ c1 :: B = tag ++ z -> forallb tag_char tag = true ->
  tag_char c1 = false ->
  exists r, post' = tag ++ r.
Proof.
  intros E Ht Hc.
  assert (Hn : ~ In c1 tag).
  { intros Hin. rewrite forallb_forall in Ht.
    rewrite (Ht c1 Hin) in Hc. discriminate. }
  assert (E' : [] ++ tag ++ z = post' ++ c1 :: B) by now rewrite E.
  apply occurrence_split in E' as [(r & F & _)|(p & _ & F)];
    [now exists r | destruct post'; discriminate | exact Hn].
Qed.

Lemma all_wrapped_after (k1 X post0 : str) (c0 : ascii) :
  tag_char c0 = false ->
  all_wrapped k1 ((X ++ [c0]) ++ post0) ->
  all_wrapped k1 post0.
Proof.
  intros Hc H pre m post -> Hm.
  destruct (H ((X ++ [c0]) ++ pre) m post) as (W1 & (q & W2) & W3);
    [now rewrite <- !app_assoc | exact Hm |].
  split; [exact W1|]. split; [|exact W3].
  rewrite <- app_assoc in W2. cbn [app] in W2.
  exact (marker_after X pre q $"<b>" c0 W2 eq_refl Hc).
Qed.

(** Replacing another keyword leaves the occurrences of [k1] wrapped,
    when [k1] does not occur in that keyword. *)
Lemma replaced_keeps_wrapped (k1 k2 s s' : str) :
  k1 <> [] -> tagfree k1 = true ->
  k2 <> [] -> tagfree k2 = true ->
  occurs_in k2 k1 = false ->
  replaced k2 (fun _ => bold k2) s s' ->
  all_wrapped k1 s -> all_wrapped k1 s'.
Proof.
  intros Hne1 Ht1 Hne2 Ht2 Hsub.
  induction 1 as [s Ho | pre0 m0 post0 out Hp Hl Hm0 Hr IH]; [trivial|].
  intros Hw.
  assert (Hm0t : tagfree m0 = true) by now rewrite (tagfree_lower m0 k2 Hm0).
  pose proof (span_nonempty m0 k2 Hne2 Hm0) as Hm0ne.
  assert (Hout : all_wrapped k1 out).
  { apply IH.
    destruct (exists_last Hm0ne) as (m0' & c0 & Em0).
    apply (all_wrapped_after k1 (pre0 ++ m0') post0 c0).
    - apply (tagfree_chars m0 c0 Hm0t). rewrite Em0.
      apply in_or_app. right. now left.
    - assert (Eq : ((pre0 ++ m0') ++ [c0]) ++ post0 = pre0 ++ m0 ++ post0)
        by (rewrite Em0, <- !app_assoc; reflexivity).
      rewrite Eq. exact Hw. }
  intros pre m post E Hm.
  assert (Hmt : tagfree m = true) by now rewrite (tagfree_lower m k1 Hm).
  pose proof (span_nonempty m k1 Hne1 Hm) as Hmne.
  unfold bold in E. symmetry in E.
  change (pre0 ++ ($"<b>" ++ k2 ++ $"</b>") ++ out)
    with (pre0 ++ "<"%char :: ["b"%char] ++ ">"%char
               :: (k2 ++ $"</b>") ++ out) in E.
  apply occurrence_split in E as [(post' & E1 & E2)|(p1 & E1 & E2)];
    [| | apply (tagfree_sep m _ Hmt); reflexivity].
  { (* the occurrence lies before the replaced span *)
    destruct (Hw pre m (post' ++ m0 ++ post0)) as (W1 & W2 & (z & W3));
      [now rewrite E1, <- !app_assoc | exact Hm |].
    split; [exact W1|]. split; [exact W2|].
    destruct m0 as [|c1 m0']; [contradiction|].
    destruct (marker_before post' (m0' ++ post0) z $"</b>" c1 W3 eq_refl)
      as (r & Er).
    - apply (tagfree_chars (c1 :: m0') c1 Hm0t). now left.
    - eexists. rewrite E2, Er, <- app_assoc. reflexivity. }
  symmetry in E1.
  apply occurrence_split in E1 as [(post' & F1 & F2)|(p2 & F1 & F2)];
    [| | apply (tagfree_sep m _ Hmt); reflexivity].
  { exfalso. exact (tagfree_inside m _ p1 post' Hmt Hmne F1 eq_refl). }
  symmetry in F1. rewrite <- app_assoc in F1.
  change (k2 ++ $"</b>" ++ out)
    with (k2 ++ "<"%char :: $"/b" ++ ">"%char :: out) in F1.
  apply occurrence_split in F1 as [(post' & G1 & G2)|(p3 & G1 & G2)];
    [| | apply (tagfree_sep m _ Hmt); reflexivity].
  { exfalso. rewrite G1 in Hsub.
    rewrite (occurs_in_infix k1 p2 m post' (occurs_in_span k1 m Hm)) in Hsub.
    discriminate. }
  symmetry in G1.
  apply occurrence_split in G1 as [(post' & K1 & K2)|(p4 & K1 & K2)];
    [| | apply (tagfree_sep m _ Hmt); reflexivity].
  { exfalso. exact (tagfree_inside m _ p3 post' Hmt Hmne K1 eq_refl). }
  destruct (Hout p4 m post K1 Hm) as (W1 & (q & W2) & W3).
  split; [exact W1|]. split; [|exact W3].
  exists (pre0 ++ $"<b>" ++ k2 ++ $"</b>" ++ q).
  rewrite E2, F2, G2, K2, W2. rewrite <- !app_assoc. reflexivity.
Qed.

End Keeping.

Section Wrapped.

Lemma keyword_tagfree (kw : str) :
  In kw all_keywords -> tagfree kw = true.
Proof.
  assert (H : Forall (fun k => tagfree k = true) all_keywords)
    by (repeat constructor).
  rewrite Forall_forall in H. apply H.
Qed.

(** No catalog phrase occurs in a later one. *)
Lemma catalog_apart : apart all_keywords.
Proof.
  assert (H : forall l x, forallb (fun y => negb (occurs_in y x)) l = true ->
              forall y, In y l -> occurs_in y x = false).
  { intros l x Hl y Hy. rewrite forallb_forall in Hl.
    now apply negb_true_iff, Hl. }
  unfold all_keywords. cbn [flat_map KEYWORDS snd app apart].
  repeat (split; [apply H; vm_compute; reflexivity|]).
  exact I.
Qed.

Lemma apart_filter (P : str -> bool) (l : list str) :
  apart l -> apart (filter P l).
Proof.
  induction l as [|x r IH]; intros H; [exact I|].
  destruct H as [H1 H2]. cbn [filter].
  destruct (P x); [|auto]. split; [|auto].
  intros y Hy. apply H1. now apply filter_In in Hy.
Qed.

Lemma apart_firstn (n : nat) (l : list str) :
  apart l -> apart (firstn n l).
Proof.
  revert l. induction n as [|n IH]; intros [|x r] H; try exact I.
  destruct H as [H1 H2]. cbn [firstn]. split; [|auto].
  intros y Hy. apply H1.
  rewrite <- (firstn_skipn n r). apply in_or_app. now left.
Qed.

Lemma selected_apart (bolded : str) : apart (selected bolded).
Proof.
  unfold selected. rewrite candidates_filter.
  apply apart_firstn, apart_filter, catalog_apart.
Qed.

Lemma chain_wrapped (kws : list str) (s out : str) :
  chain kws s out ->
  (forall k, In k kws -> k <> [] /\ tagfree k = true) ->
  apart kws ->
  forall done,
    (forall d, In d done ->
       d <> [] /\ tagfree d = true /\
       forall k, In k kws -> occurs_in k d = false) ->
    (forall d, In d done -> all_wrapped d s) ->
    forall k, In k (done ++ kws) -> all_wrapped k out.
Proof.
  induction 1 as [s | kw kws s s' out Hr Hc IH];
    intros Hk Ha done Hd Hw k Hin.
  - rewrite app_nil_r in Hin. auto.
  - destruct Ha as [Ha1 Ha2].
    destruct (Hk kw (or_introl eq_refl)) as [Hne Htf].
    apply (IH (fun x Hx => Hk x (or_intror Hx)) Ha2 (kw :: done)).
    + intros d [<-|Hdd].
      * repeat split; trivial.
      * destruct (Hd d Hdd) as (D1 & D2 & D3).
        repeat split; trivial. intros x Hx. apply D3. now right.
    + intros d [<-|Hdd].
      * exact (replaced_wraps kw s s' Hne Htf Hr).
      * destruct (Hd d Hdd) as (D1 & D2 & D3).
        apply (replaced_keeps_wrapped d kw s s' D1 D2 Hne Htf); auto.
        apply D3. now left.
    + apply in_app_or in Hin as [Hin|[<-|Hin]].
      * right. apply in_or_app. now left.
      * now left.
      * right. apply in_or_app. now right.
Qed.

Lemma bold_keywords_wrapped (bolded out kw : str) :
  bold_keywords bolded = Some out ->
  In kw (selected bolded) ->
  all_wrapped kw out.
Proof.
  intros H Hin.
  destruct (bold_keywords_chain bolded) as (o & Ho & Hc).
  rewrite Ho in H. injection H as <-.
  apply (chain_wrapped (selected bolded) bolded o Hc) with (done := []).
  - intros k Hk. apply selected_in in Hk as [Hk _].
    split; [apply (keyword_plain k Hk) | apply (keyword_tagfree k Hk)].
  - apply selected_apart.
  - intros d [].
  - intros d [].
  - exact Hin.
Qed.

End Wrapped.

(** X16.  After a paragraph has gone through the pass, no occurrence of a
    selected keyword is left unwrapped in it: every occurrence, letter case
    ignored, of each of the (at most three) keywords selected for the
    paragraph has the catalog spelling and stands directly between [<b>]
    and [</b>]. *)
Theorem selected_keywords_all_wrapped
  (C : str) (used used' : bool) (para out : str) :
  bold_paragraph C used para = Some (used', out) ->
  exists bolded,
    bold_company C used para = Some (used', bolded) /\
    forall kw pre m post,
      In kw (selected bolded) ->
      out = pre ++ m ++ post -> lower m = lower kw ->
      m = kw /\
      (exists pre', pre = pre' ++ $"<b>") /\
      (exists post', post = $"</b>" ++ post').
Proof.
  unfold bold_paragraph. intros H.
  destruct (bold_company C used para) as [[u b]|]; [|discriminate].
  destruct (bold_keywords b) as [o|] eqn:Eo; [|discriminate].
  injection H as <- <-. exists b. split; [reflexivity|].
  intros kw pre m post Hin E Hm.
  exact (bold_keywords_wrapped b o kw Eo Hin pre m post E Hm).
Qed.

Lemma selected_keywords_all_wrapped_witness :
  let para := $"Our mis team; MIS and compliance." in
  let out := $"Our <b>MIS</b> team; <b>MIS</b> and <b>compliance</b>." in
  bold_paragraph $"Acme" false para = Some (false, out) /\
  In $"MIS" (selected para) /\
  out = $"Our <b>" ++ $"MIS" ++ $"</b> team; <b>MIS</b> and <b>compliance</b>." /\
  lower $"MIS" = lower $"MIS" /\
  exists bolded,
    bold_company $"Acme" false para = Some (false, bolded) /\
    forall kw pre m post,
      In kw (selected bolded) ->
      out = pre ++ m ++ post -> lower m = lower kw ->
      m = kw /\
      (exists pre', pre = pre' ++ $"<b>") /\
      (exists post', post = $"</b>" ++ post').
Proof.
  intros para out.
  split; [reflexivity|]. split; [vm_compute; tauto|].
  split; [reflexivity|]. split; [reflexivity|].
  exact (selected_keywords_all_wrapped $"Acme" false false para out eq_refl).
Defined.

(** * Re-running the pass *)

Section Rerun.

Lemma lower_marker (a t : ascii) :
  marker_char t = true ->
  Ascii.eqb (lower_char a) (lower_char t) = true -> a = t.
Proof.
  unfold marker_char. intros Ht.
  repeat (apply orb_true_iff in Ht as [Ht|Ht]);
    apply Ascii.eqb_eq in Ht; subst t;
    destruct a as [[] [] [] [] [] [] [] []]; cbn; intros H;
    first [reflexivity | discriminate H].
Qed.

Lemma marker_safe_nonempty (x : str) : marker_safe x = true -> x <> [].
Proof. intros H ->. discriminate H. Qed.

Lemma marker_safe_chars (x : str) :
  marker_safe x = true -> forallb (fun c => negb (marker_char c)) x = true.
Proof. unfold marker_safe. intros H. now apply andb_true_iff in H. Qed.

Lemma safe_miss (x y : str) (t : ascii) :
  marker_safe x = true -> marker_char t = true ->
  Re.match_at x (t :: y) = false.
Proof.
  intros Hx Ht. pose proof (marker_safe_chars x Hx) as Hc.
  destruct x as [|a x']; [discriminate Hx|].
  cbn [Re.match_at]. cbn [forallb] in Hc.
  apply andb_true_iff in Hc as [Ha _].
  destruct (Ascii.eqb (lower_char a) (lower_char t)) eqn:E; [|reflexivity].
  apply (lower_marker a t Ht) in E. subst a.
  rewrite Ht in Ha. discriminate Ha.
Qed.

Lemma safe_miss_b (x y : str) :
  marker_safe x = true ->
  Re.match_at x ("b"%char :: ">"%char :: y) = false.
Proof.
  intros Hx. pose proof (marker_safe_chars x Hx) as Hc.
  destruct x as [|a [|d x']]; [discriminate Hx | |].
  - unfold marker_safe in Hx. apply andb_true_iff in Hx as [_ Hx].
    apply negb_true_iff in Hx. cbn [Re.match_at].
    change (lower_char "b") with "b"%char. now rewrite Hx.
  - cbn [Re.match_at]. cbn [forallb] in Hc.
    apply andb_true_iff in Hc as [_ Hc].
    apply andb_true_iff in Hc as [Hd _].
    destruct (Ascii.eqb (lower_char d) (lower_char ">")) eqn:E.
    + apply (lower_marker d ">"%char eq_refl) in E. subst d.
      discriminate Hd.
    + now rewrite andb_false_r.
Qed.

(** A match that starts before a marker ends before it. *)
Lemma match_before (x p y z : str) :
  forallb (fun c => negb (marker_char c)) x = true ->
  Re.match_at x (p ++ "<"%char :: y) = true ->
  Re.match_at x (p ++ z) = true.
Proof.
  revert p. induction x as [|a x' IH]; intros p Hc H; [reflexivity|].
  cbn [forallb] in Hc. apply andb_true_iff in Hc as [Ha Hc].
  destruct p as [|c p'].
  - cbn [app Re.match_at] in H. apply andb_true_iff in H as [E _].
    apply (lower_marker a "<"%char eq_refl) in E. subst a.
    discriminate Ha.
  - cbn [app Re.match_at] in *. apply andb_true_iff in H as [E H].
    rewrite E. cbn [andb]. now apply IH.
Qed.

Lemma no_start_marker (x pre rest y : str) :
  forallb (fun c => negb (marker_char c)) x = true ->
  no_start x pre rest = true ->
  no_start x pre ("<"%char :: y) = true.
Proof.
  intros Hc. induction pre as [|c p IH]; intros H; [reflexivity|].
  cbn [no_start] in *. apply andb_true_iff in H as [H1 H2].
  rewrite (IH H2), andb_true_r.
  destruct (Re.match_at x ((c :: p) ++ "<"%char :: y)) eqn:E; [|reflexivity].
  rewrite (match_before x (c :: p) y rest Hc E) in H1. discriminate H1.
Qed.

Lemma wrap_all_miss (x w : str) (c : ascii) (t : str) :
  Re.match_at x (c :: t) = false ->
  wrap_all x w (c :: t) = c :: wrap_all x w t.
Proof. apply sub_go_miss. Qed.

Lemma wrap_all_hit (x w m post : str) :
  x <> [] -> List.length m = List.length x -> lower m = lower x ->
  wrap_all x w (m ++ post) = w ++ wrap_all x w post.
Proof.
  intros Hne Hl Hm. unfold wrap_all.
  now rewrite sub_go_hit, expand_plain.
Qed.

Lemma wrap_all_no_start (x w pre rest : str) :
  no_start x pre rest = true ->
  wrap_all x w (pre ++ rest) = pre ++ wrap_all x w rest.
Proof. apply sub_go_no_start. Qed.

Lemma wrap_all_absent (x w s : str) :
  occurs_in s x = false -> wrap_all x w s = s.
Proof. apply sub_go_absent. Qed.

Lemma wrap_all_replaced (x w s : str) :
  x <> [] -> replaced x (fun _ => w) s (wrap_all x w s).
Proof.
  intros Hne. unfold wrap_all.
  pose proof (sub_go_replaced x (map Re.TLit w) s Hne) as H.
  induction H.
  - now apply replaced_none.
  - rewrite expand_plain.
    now apply (@replaced_hit x (fun _ => w) pre m post out).
Qed.

Lemma sub_wrap_all (x w s : str) :
  no_backslash w = true -> Re.sub x w s = Some (wrap_all x w s).
Proof.
  intros H. unfold Re.sub, Re.parse_template, wrap_all.
  now rewrite (parse_go_plain w H).
Qed.

(** Over a marker the scan finds nothing. *)
Lemma wrap_all_open (x w t : str) :
  marker_safe x = true ->
  wrap_all x w ($"<b>" ++ t) = $"<b>" ++ wrap_all x w t.
Proof.
  intros Hx. cbn [list_ascii_of_string app].
  rewrite wrap_all_miss by (apply safe_miss; trivial).
  rewrite wrap_all_miss by (apply safe_miss_b; trivial).
  rewrite wrap_all_miss by (apply safe_miss; trivial).
  reflexivity.
Qed.

Lemma wrap_all_close (x w t : str) :
  marker_safe x = true ->
  wrap_all x w ($"</b>" ++ t) = $"</b>" ++ wrap_all x w t.
Proof.
  intros Hx. cbn [list_ascii_of_string app].
  rewrite wrap_all_miss by (apply safe_miss; trivial).
  rewrite wrap_all_miss by (apply safe_miss; trivial).
  rewrite wrap_all_miss by (apply safe_miss_b; trivial).
  rewrite wrap_all_miss by (apply safe_miss; trivial).
  reflexivity.
Qed.

(** Substituting a second time doubles the markers of the first. *)
Lemma wrap_twice_replaced (x s s1 : str) :
  marker_safe x = true ->
  replaced x (fun _ => bold x) s s1 ->
  wrap_all x (bold x) s1 = wrap_all x (bold (bold x)) s.
Proof.
  intros Hx. pose proof (marker_safe_nonempty x Hx) as Hne.
  induction 1 as [s Ho | pre m post out Hp Hl Hm Hr IH].
  - now rewrite !wrap_all_absent.
  - rewrite (wrap_all_no_start x (bold (bold x)) pre (m ++ post) Hp).
    rewrite (wrap_all_hit x (bold (bold x)) m post Hne Hl Hm).
    assert (E : pre ++ bold x ++ out = pre ++ $"<b>" ++ x ++ $"</b>" ++ out)
      by (unfold bold; now rewrite <- !app_assoc).
    rewrite E.
    rewrite (wrap_all_no_start x (bold x) pre ($"<b>" ++ x ++ $"</b>" ++ out)
               (no_start_marker x pre (m ++ post) _
                  (marker_safe_chars x Hx) Hp)).
    rewrite (wrap_all_open x (bold x) _ Hx).
    rewrite (wrap_all_hit x (bold x) x _ Hne eq_refl eq_refl).
    rewrite (wrap_all_close x (bold x) _ Hx).
    rewrite IH. unfold bold. rewrite <- !app_assoc. reflexivity.
Qed.

Lemma wrap_twice (x s : str) :
  marker_safe x = true ->
  wrap_all x (bold x) (wrap_all x (bold x) s)
  = wrap_all x (bold (bold x)) s.
Proof.
  intros Hx. apply wrap_twice_replaced; [exact Hx|].
  apply wrap_all_replaced, marker_safe_nonempty, Hx.
Qed.

Lemma occurs_decomp (s k : str) :
  occurs_in s k = true ->
  exists pre m post, s = pre ++ m ++ post /\ lower m = lower k.
Proof.
  intros H. destruct (first_match k s H) as (pre & rest & -> & _ & Hr).
  destruct (match_at_split k rest Hr) as (m & post & -> & _ & Hm).
  now exists pre, m, post.
Qed.

Lemma marker_free_span (m k : str) (c : ascii) :
  lower m = lower k ->
  forallb (fun c => negb (marker_char c)) k = true ->
  marker_char c = true -> ~ In c m.
Proof.
  intros Hm Hk Hc Hin.
  assert (Hl : In (lower_char c) (lower k)).
  { rewrite <- Hm. now apply in_map. }
  apply in_map_iff in Hl as (c' & E & Hin').
  assert (c' = c).
  { apply (lower_marker c' c Hc). rewrite E. apply Ascii.eqb_refl. }
  subst c'. rewrite forallb_forall in Hk.
  specialize (Hk c Hin'). rewrite Hc in Hk. discriminate Hk.
Qed.

Lemma safe_not_b (m k pre post : str) :
  marker_safe k = true -> lower m = lower k ->
  ["b"%char] = pre ++ m ++ post -> False.
Proof.
  intros Hk Hm E.
  pose proof (span_nonempty m k (marker_safe_nonempty k Hk) Hm) as Hne.
  destruct pre as [|c pre'].
  - destruct m as [|b m']; [contradiction|].
    cbn [app] in E. injection E as <- E.
    destruct m'; [|discriminate E].
    destruct k as [|c [|d k']]; try discriminate Hm.
    cbn in Hm. injection Hm as Hm.
    unfold marker_safe in Hk. apply andb_true_iff in Hk as [_ Hk].
    rewrite <- Hm in Hk. discriminate Hk.
  - cbn [app] in E. injection E as _ E.
    destruct pre', m; try discriminate E. contradiction.
Qed.

(** Wrapping the matches of [x] brings no new occurrence of a
    marker-safe [k] into the text. *)
Lemma replaced_no_new (x k s s' : str) :
  marker_safe k = true ->
  replaced x (fun _ => bold x) s s' ->
  occurs_in s k = false -> occurs_in s' k = false.
Proof.
  intros Hk. pose proof (marker_safe_chars k Hk) as Hkc.
  induction 1 as [s Ho | pre0 m0 post0 out Hp Hl Hm0 Hr IH]; [trivial|].
  intros Hs.
  assert (Hpost : occurs_in post0 k = false).
  { destruct (occurs_in post0 k) eqn:E; [|reflexivity].
    rewrite app_assoc in Hs.
    unfold occurs_in in Hs, E. rewrite lower_app in Hs.
    now rewrite (contains_app_r _ _ _ E) in Hs. }
  specialize (IH Hpost).
  destruct (occurs_in (pre0 ++ bold x ++ out) k) eqn:Ho; [|reflexivity].
  exfalso. destruct (occurs_decomp _ k Ho) as (pre & m & post & E & Hm).
  pose proof (span_nonempty m k (marker_safe_nonempty k Hk) Hm) as Hmne.
  assert (Hsep : forall c, marker_char c = true -> ~ In c m)
    by (intros c Hc; exact (marker_free_span m k c Hm Hkc Hc)).
  unfold bold in E. symmetry in E.
  change (pre0 ++ ($"<b>" ++ x ++ $"</b>") ++ out)
    with (pre0 ++ "<"%char :: ["b"%char] ++ ">"%char
               :: (x ++ $"</b>") ++ out) in E.
  apply occurrence_split in E as [(post' & E1 & E2)|(p1 & E1 & E2)];
    [| | now apply Hsep].
  { rewrite E1, <- !app_assoc in Hs.
    rewrite (occurs_in_infix k pre m _ (occurs_in_span k m Hm)) in Hs.
    discriminate Hs. }
  symmetry in E1.
  apply occurrence_split in E1 as [(post' & F1 & F2)|(p2 & F1 & F2)];
    [| | now apply Hsep].
  { exact (safe_not_b m k p1 post' Hk Hm F1). }
  symmetry in F1. rewrite <- app_assoc in F1.
  change (x ++ $"</b>" ++ out)
    with (x ++ "<"%char :: [] ++ "/"%char
            :: ["b"%char] ++ ">"%char :: out) in F1.
  apply occurrence_split in F1 as [(post' & G1 & G2)|(p3 & G1 & G2)];
    [| | now apply Hsep].
  { assert (Hx : occurs_in x k = true)
      by (rewrite G1; apply occurs_in_infix, occurs_in_span, Hm).
    assert (Hm0k : occurs_in m0 k = true)
      by (unfold occurs_in in *; now rewrite Hm0).
    rewrite (occurs_in_infix k pre0 m0 post0 Hm0k) in Hs.
    discriminate Hs. }
  symmetry in G1.
  apply occurrence_split in G1 as [(post' & K1 & K2)|(p4 & K1 & K2)];
    [| | now apply Hsep].
  { destruct p3, m; try discriminate K1. contradiction. }
  symmetry in K1.
  apply occurrence_split in K1 as [(post' & L1 & L2)|(p5 & L1 & L2)];
    [| | now apply Hsep].
  { exact (safe_not_b m k p4 post' Hk Hm L1). }
  rewrite L1 in IH.
  rewrite (occurs_in_infix k p5 m post (occurs_in_span k m Hm)) in IH.
  discriminate IH.
Qed.

Lemma keyword_safe (kw : str) :
  In kw all_keywords -> marker_safe kw = true.
Proof.
  assert (H : Forall (fun k => marker_safe k = true) all_keywords)
    by (repeat constructor).
  rewrite Forall_forall in H. apply H.
Qed.

Lemma keywords_only_free (ps : list str) :
  (forall q, In q ps ->
     forall kw, In kw all_keywords -> occurs_in q kw = false) ->
  keywords_only ps = Some ps.
Proof.
  induction ps as [|p ps IH]; intros H; [reflexivity|].
  cbn [keywords_only].
  rewrite (bold_keywords_none p (H p (or_introl eq_refl))).
  now rewrite IH by (intros q Hq; apply H; now right).
Qed.

Lemma run_on_holder (C : str) (ps1 : list str) (p o : str)
  (ps2 o1 o2 : list str) :
  (forall q, In q ps1 -> occurs_in q C = false) ->
  keywords_only ps1 = Some o1 -> keywords_only ps2 = Some o2 ->
  bold_paragraph C false p = Some (true, o) ->
  bold_paragraphs C false (ps1 ++ p :: ps2) = Some (o1 ++ o :: o2).
Proof.
  intros H1 E1 E2 Ep.
  rewrite (bold_paragraphs_before C false ps1 (p :: ps2) H1), E1.
  cbn [bold_paragraphs]. rewrite Ep, bold_paragraphs_flag_set, E2.
  reflexivity.
Qed.

Lemma wrap_all_holds (x s : str) :
  x <> [] -> occurs_in s x = true ->
  occurs_in (wrap_all x (bold x) s) x = true.
Proof.
  intros Hne Ho.
  destruct (first_match x s Ho) as (pre & rest & -> & Hp & Hr).
  destruct (match_at_split x rest Hr) as (m & post & -> & Hl & Hm).
  rewrite (wrap_all_no_start x (bold x) pre (m ++ post) Hp).
  rewrite (wrap_all_hit x (bold x) m post Hne Hl Hm).
  unfold bold. rewrite <- !app_assoc, app_assoc.
  apply occurs_in_infix, occurs_in_span. reflexivity.
Qed.

(** The company step twice on a paragraph without keywords. *)
Lemma company_para_twice (C p : str) :
  marker_safe C = true -> no_backslash C = true ->
  (forall kw, In kw all_keywords -> occurs_in p kw = false) ->
  occurs_in p C = true ->
  bold_paragraph C false p = Some (true, wrap_all C (bold C) p) /\
  bold_paragraph C false (wrap_all C (bold C) p)
  = Some (true, wrap_all C (bold (bold C)) p).
Proof.
  intros Hs Hb Hk Ho.
  pose proof (marker_safe_nonempty C Hs) as Hne.
  pose proof (wrap_all_replaced C (bold C) p Hne) as R1.
  assert (K1 : forall kw, In kw all_keywords ->
                 occurs_in (wrap_all C (bold C) p) kw = false).
  { intros kw Hin.
    exact (replaced_no_new C kw p _ (keyword_safe kw Hin) R1 (Hk kw Hin)). }
  pose proof (wrap_all_replaced C (bold C) (wrap_all C (bold C) p) Hne) as R2.
  assert (K2 : forall kw, In kw all_keywords ->
                 occurs_in (wrap_all C (bold (bold C)) p) kw = false).
  { intros kw Hin. rewrite <- (wrap_twice C p Hs).
    exact (replaced_no_new C kw _ _ (keyword_safe kw Hin) R2 (K1 kw Hin)). }
  unfold bold_paragraph, bold_company. split.
  - rewrite Ho. cbn [negb andb].
    rewrite (sub_wrap_all C (bold C) p (no_backslash_bold C Hb)).
    now rewrite (bold_keywords_none _ K1).
  - rewrite (wrap_all_holds C p Hne Ho). cbn [negb andb].
    rewrite (sub_wrap_all C (bold C) _ (no_backslash_bold C Hb)).
    rewrite (wrap_twice C p Hs).
    now rewrite (bold_keywords_none _ K2).
Qed.

Lemma company_rerun (C T : str) (ps1 : list str) (p : str)
  (ps2 : list str) :
  marker_safe C = true -> no_backslash C = true ->
  split_nn T = ps1 ++ p :: ps2 ->
  (forall q, In q ps1 -> occurs_in q C = false) ->
  occurs_in p C = true ->
  (forall kw, In kw all_keywords -> occurs_in T kw = false) ->
  apply_programmatic_bolding T C
  = Some (join_nn (ps1 ++ wrap_all C (bold C) p :: ps2)) /\
  apply_programmatic_bolding
    (join_nn (ps1 ++ wrap_all C (bold C) p :: ps2)) C
  = Some (join_nn (ps1 ++ wrap_all C (bold (bold C)) p :: ps2)).
Proof.
  intros Hs Hb Hsp H1 Hp Hk.
  pose proof (marker_safe_nonempty C Hs) as Hne.
  assert (Hfree : forall q, In q (ps1 ++ p :: ps2) ->
            forall kw, In kw all_keywords -> occurs_in q kw = false).
  { intros q Hq kw Hin. rewrite <- Hsp in Hq.
    exact (absent_in_paragraphs T kw q (Hk kw Hin) Hq). }
  assert (F1 : keywords_only ps1 = Some ps1).
  { apply keywords_only_free. intros q Hq. apply Hfree.
    apply in_or_app. now left. }
  assert (F2 : keywords_only ps2 = Some ps2).
  { apply keywords_only_free. intros q Hq. apply Hfree.
    apply in_or_app. right. now right. }
  assert (Fp : forall kw, In kw all_keywords -> occurs_in p kw = false).
  { apply Hfree. apply in_or_app. right. now left. }
  destruct (company_para_twice C p Hs Hb Fp Hp) as [P1 P2].
  pose proof (run_on_holder C ps1 p _ ps2 ps1 ps2 H1 F1 F2 P1) as E1.
  pose proof (run_on_holder C ps1 _ _ ps2 ps1 ps2 H1 F1 F2 P2) as E2.
  assert (Hok : paragraphs_ok (ps1 ++ wrap_all C (bold C) p :: ps2) = true).
  { rewrite <- Hsp in E1.
    exact (proj1 (bold_paragraphs_ok C false (split_nn T) _ Hne Hb E1
                    (split_nn_ok T))). }
  unfold apply_programmatic_bolding. split.
  - now rewrite Hsp, E1.
  - now rewrite (split_join _ Hok), E2.
Qed.

Lemma filter_all_false (P : str -> bool) (l : list str) :
  (forall k, In k l -> P k = false) -> filter P l = [].
Proof.
  induction l as [|x r IH]; intros H; [reflexivity|].
  cbn [filter]. rewrite (H x (or_introl eq_refl)).
  apply IH. intros k Hk. apply H. now right.
Qed.

(** Where one phrase alone can pass the test, the filter keeps it once. *)
Lemma filter_only (P : str -> bool) (l : list str) (kw : str) :
  In kw l -> apart l ->
  (forall k, In k l -> k <> kw -> P k = false) ->
  filter P l = if P kw then [kw] else [].
Proof.
  induction l as [|x r IH]; intros Hin Ha H; [destruct Hin|].
  destruct Ha as [Ha1 Ha2]. cbn [filter].
  destruct (list_eq_dec ascii_dec x kw) as [->|Hx].
  - assert (Hr : filter P r = []).
    { apply filter_all_false. intros k Hk. apply H; [now right|].
      intros ->. specialize (Ha1 kw Hk).
      rewrite (occurs_in_span kw kw eq_refl) in Ha1. discriminate Ha1. }
    rewrite Hr. reflexivity.
  - rewrite (H x (or_introl eq_refl) Hx).
    apply IH; trivial.
    + destruct Hin as [E|Hin]; [contradiction | exact Hin].
    + intros k Hk. apply H. now right.
Qed.

Lemma bold_keywords_single (q kw : str) :
  In kw all_keywords ->
  (forall k, In k all_keywords -> k <> kw -> occurs_in q k = false) ->
  bold_keywords q = Some (wrap_all kw (bold kw) q).
Proof.
  intros Hin H. unfold bold_keywords.
  rewrite candidates_filter.
  rewrite (filter_only (occurs_in q) all_keywords kw Hin catalog_apart H).
  destruct (occurs_in q kw) eqn:E; cbn [firstn bold_each].
  - rewrite (sub_wrap_all kw (bold kw) q).
    + reflexivity.
    + apply no_backslash_bold, (keyword_plain kw Hin).
  - now rewrite wrap_all_absent.
Qed.

Lemma keywords_only_single (ps : list str) (kw : str) :
  In kw all_keywords ->
  (forall q, In q ps ->
     forall k, In k all_keywords -> k <> kw -> occurs_in q k = false) ->
  keywords_only ps = Some (map (wrap_all kw (bold kw)) ps).
Proof.
  intros Hin. induction ps as [|p ps IH]; intros H; [reflexivity|].
  cbn [keywords_only map].
  rewrite (bold_keywords_single p kw Hin (H p (or_introl eq_refl))).
  now rewrite IH by (intros q Hq; apply H; now right).
Qed.

Lemma keyword_rerun (C T kw : str) :
  marker_safe C = true -> no_backslash C = true ->
  In kw all_keywords ->
  (forall k, In k all_keywords -> k <> kw -> occurs_in T k = false) ->
  (forall q, In q (split_nn T) -> occurs_in q C = false) ->
  apply_programmatic_bolding T C
  = Some (join_nn (map (wrap_all kw (bold kw)) (split_nn T))) /\
  apply_programmatic_bolding
    (join_nn (map (wrap_all kw (bold kw)) (split_nn T))) C
  = Some (join_nn (map (wrap_all kw (bold (bold kw))) (split_nn T))).
Proof.
  intros Hs Hb Hin Hk Hc.
  pose proof (marker_safe_nonempty C Hs) as Hne.
  pose proof (keyword_plain kw Hin) as [Hkne Hkb].
  assert (Hfree : forall q, In q (split_nn T) ->
            forall k, In k all_keywords -> k <> kw -> occurs_in q k = false).
  { intros q Hq k Hik Hneq.
    exact (absent_in_paragraphs T k q (Hk k Hik Hneq) Hq). }
  assert (E1 : bold_paragraphs C false (split_nn T)
               = Some (map (wrap_all kw (bold kw)) (split_nn T))).
  { rewrite (bold_paragraphs_absent C false (split_nn T) Hc).
    now apply keywords_only_single. }
  assert (Hok : paragraphs_ok (map (wrap_all kw (bold kw)) (split_nn T))
                = true).
  { exact (proj1 (bold_paragraphs_ok C false (split_nn T) _ Hne Hb E1
                    (split_nn_ok T))). }
  unfold apply_programmatic_bolding. split; [now rewrite E1|].
  rewrite (split_join _ Hok).
  rewrite (bold_paragraphs_absent C false).
  - rewrite (keywords_only_single _ kw Hin).
    + rewrite map_map. cbn [option_map]. do 2 f_equal.
      apply map_ext. intros q. apply wrap_twice, keyword_safe, Hin.
    + intros q' Hq' k Hik Hneq.
      apply in_map_iff in Hq' as (q & <- & Hq).
      exact (replaced_no_new kw k q _ (keyword_safe k Hik)
               (wrap_all_replaced kw (bold kw) q Hkne)
               (Hfree q Hq k Hik Hneq)).
  - intros q' Hq'. apply in_map_iff in Hq' as (q & <- & Hq).
    exact (replaced_no_new kw C q _ Hs
             (wrap_all_replaced kw (bold kw) q Hkne) (Hc q Hq)).
Qed.

End Rerun.

(** C2, as stated, fails: a second run on the output of the first wraps the
    company name again. *)
Lemma rerun_nests_markers :
  apply_programmatic_bolding $"Acme" $"Acme" = Some $"<b>Acme</b>" /\
  apply_programmatic_bolding $"<b>Acme</b>" $"Acme"
  = Some $"<b><b>Acme</b></b>".
Proof. split; reflexivity. Qed.

Lemma keyword_alone (kw : str) :
  In kw all_keywords ->
  split_nn kw = [kw] /\ split_nn (bold kw) = [bold kw] /\
  bold_keywords kw = Some (bold kw) /\
  bold_keywords (bold kw) = Some (bold (bold kw)).
Proof.
  assert (H : Forall (fun k =>
            split_nn k = [k] /\ split_nn (bold k) = [bold k] /\
            bold_keywords k = Some (bold k) /\
            bold_keywords (bold k) = Some (bold (bold k))) all_keywords).
  { repeat (constructor; [vm_compute; repeat split; reflexivity|]).
    constructor. }
  rewrite Forall_forall in H. apply H.
Qed.

Lemma apply_single (text company out : str) :
  split_nn text = [text] ->
  occurs_in text company = false ->
  bold_keywords text = Some out ->
  apply_programmatic_bolding text company = Some out.
Proof.
  intros Hs Hc Hk. unfold apply_programmatic_bolding. rewrite Hs.
  unfold bold_paragraphs, bold_paragraph.
  now rewrite bold_company_absent, Hk.
Qed.

(** C2, amended.  The pass has no guard against markers already present:
    a second run takes them for ordinary text and wraps again the spans
    the first run wrapped.  Call a needle marker-safe when it is not
    empty, holds none of [<], [>], [/] and is not the single letter b;
    every catalog keyword is marker-safe.
    - For a marker-safe needle [x] without a backslash, substituting
      [<b>x</b>] for [x] twice replaces every match of [x] in the text by
      [<b><b>x</b></b>].
    - For a marker-safe company name without a backslash and a text in
      which no catalog keyword occurs, the second run returns the text
      with every match of the name, in the first paragraph that holds it,
      replaced by [<b><b>name</b></b>].
    - For such a company name that occurs in no paragraph, and a text in
      which [kw] is the only catalog keyword that occurs, the second run
      returns the text with every match of [kw], in every paragraph,
      replaced by [<b><b>kw</b></b>].
    - For every catalog keyword [kw] and every company name that does not
      occur in [<b>kw</b>], the first run turns [kw] into [<b>kw</b>] and
      the second turns that into [<b><b>kw</b></b>].
    - Where neither the company name nor a catalog keyword occurs, the
      second run, like the first, returns the text as it is. *)
Theorem rerun_is_unguarded :
  (forall x s : str,
     marker_safe x = true -> no_backslash x = true ->
     exists s1 s2,
       Re.sub x (bold x) s = Some s1 /\
       Re.sub x (bold x) s1 = Some s2 /\
       replaced x (fun _ => bold (bold x)) s s2) /\
  (forall (C T : str) (ps1 : list str) (p : str) (ps2 : list str),
     marker_safe C = true -> no_backslash C = true ->
     split_nn T = ps1 ++ p :: ps2 ->
     (forall q, In q ps1 -> occurs_in q C = false) ->
     occurs_in p C = true ->
     (forall kw, In kw all_keywords -> occurs_in T kw = false) ->
     exists R1 p2,
       apply_programmatic_bolding T C = Some R1 /\
       replaced C (fun _ => bold (bold C)) p p2 /\
       apply_programmatic_bolding R1 C = Some (join_nn (ps1 ++ p2 :: ps2))) /\
  (forall C T kw : str,
     marker_safe C = true -> no_backslash C = true ->
     In kw all_keywords ->
     (forall k, In k all_keywords -> k <> kw -> occurs_in T k = false) ->
     (forall q, In q (split_nn T) -> occurs_in q C = false) ->
     exists R1 outs,
       apply_programmatic_bolding T C = Some R1 /\
       Forall2 (replaced kw (fun _ => bold (bold kw))) (split_nn T) outs /\
       apply_programmatic_bolding R1 C = Some (join_nn outs)) /\
  (forall kw C : str,
     In kw all_keywords -> occurs_in (bold kw) C = false ->
     apply_programmatic_bolding kw C = Some (bold kw) /\
     apply_programmatic_bolding (bold kw) C = Some (bold (bold kw))) /\
  (forall T C : str,
     occurs_in T C = false ->
     (forall kw, In kw all_keywords -> occurs_in T kw = false) ->
     exists R, apply_programmatic_bolding T C = Some R /\
               apply_programmatic_bolding R C = Some R).
Proof.
  split; [|split; [|split; [|split]]].
  - intros x s Hs Hb.
    exists (wrap_all x (bold x) s), (wrap_all x (bold (bold x)) s).
    split; [apply sub_wrap_all, no_backslash_bold, Hb|]. split.
    + rewrite <- (wrap_twice x s Hs).
      apply sub_wrap_all, no_backslash_bold, Hb.
    + apply wrap_all_replaced, marker_safe_nonempty, Hs.
  - intros C T ps1 p ps2 Hs Hb Hsp H1 Hp Hk.
    destruct (company_rerun C T ps1 p ps2 Hs Hb Hsp H1 Hp Hk) as [E1 E2].
    eexists. exists (wrap_all C (bold (bold C)) p).
    split; [exact E1|]. split; [|exact E2].
    apply wrap_all_replaced, marker_safe_nonempty, Hs.
  - intros C T kw Hs Hb Hin Hk Hc.
    destruct (keyword_rerun C T kw Hs Hb Hin Hk Hc) as [E1 E2].
    eexists. exists (map (wrap_all kw (bold (bold kw))) (split_nn T)).
    split; [exact E1|]. split; [|exact E2].
    assert (F : forall l,
              Forall2 (replaced kw (fun _ => bold (bold kw))) l
                      (map (wrap_all kw (bold (bold kw))) l)).
    { induction l as [|q qs IH]; constructor; [|exact IH].
      apply wrap_all_replaced, (keyword_plain kw Hin). }
    apply F.
  - intros kw C Hin Hc.
    destruct (keyword_alone kw Hin) as (S1 & S2 & K1 & K2).
    split; apply apply_single; trivial.
    destruct (occurs_in kw C) eqn:E; [|reflexivity].
    unfold bold in Hc.
    now rewrite (occurs_in_infix C $"<b>" kw $"</b>" E) in Hc.
  - intros T C Hc Hk. exists T.
    split; now apply apply_untouched.
Qed.

Lemma rerun_is_unguarded_witness :
  (let x := $"Acme" in
   let s := $"Acme and ACME" in
   marker_safe x = true /\ no_backslash x = true /\
   Re.sub x (bold x) s = Some $"<b>Acme</b> and <b>Acme</b>" /\
   Re.sub x (bold x) $"<b>Acme</b> and <b>Acme</b>"
   = Some $"<b><b>Acme</b></b> and <b><b>Acme</b></b>" /\
   exists s1 s2,
     Re.sub x (bold x) s = Some s1 /\
     Re.sub x (bold x) s1 = Some s2 /\
     replaced x (fun _ => bold (bold x)) s s2) /\
  (let C := $"Acme Corp" in
   let p := $"At Acme Corp we grow; acme corp hires." in
   let T := $"We value integrity." ++ [nl; nl] ++ p in
   marker_safe C = true /\ no_backslash C = true /\
   split_nn T = [ $"We value integrity." ] ++ p :: [] /\
   (forall q, In q [ $"We value integrity." ] -> occurs_in q C = false) /\
   occurs_in p C = true /\
   (forall kw, In kw all_keywords -> occurs_in T kw = false) /\
   exists R1 p2,
     apply_programmatic_bolding T C = Some R1 /\
     replaced C (fun _ => bold (bold C)) p p2 /\
     apply_programmatic_bolding R1 C
     = Some (join_nn ([ $"We value integrity." ] ++ p2 :: []))) /\
  (let C := $"Acme" in
   let kw := $"MIS" in
   let T := $"Our mis team." ++ [nl; nl] ++ $"MIS again." in
   marker_safe C = true /\ no_backslash C = true /\
   In kw all_keywords /\
   (forall k, In k all_keywords -> k <> kw -> occurs_in T k = false) /\
   (forall q, In q (split_nn T) -> occurs_in q C = false) /\
   exists R1 outs,
     apply_programmatic_bolding T C = Some R1 /\
     Forall2 (replaced kw (fun _ => bold (bold kw))) (split_nn T) outs /\
     apply_programmatic_bolding R1 C = Some (join_nn outs)) /\
  (In $"MIS" all_keywords /\ occurs_in (bold $"MIS") $"Acme" = false /\
   apply_programmatic_bolding $"MIS" $"Acme" = Some $"<b>MIS</b>" /\
   apply_programmatic_bolding $"<b>MIS</b>" $"Acme"
   = Some $"<b><b>MIS</b></b>") /\
  (occurs_in $"We value integrity." $"Acme" = false /\
   (forall kw, In kw all_keywords ->
               occurs_in $"We value integrity." kw = false) /\
   exists R, apply_programmatic_bolding $"We value integrity." $"Acme"
             = Some R /\
             apply_programmatic_bolding R $"Acme" = Some R).
Proof.
  destruct rerun_is_unguarded as (W1 & W2 & W3 & W4 & W5).
  assert (Hmis : In $"MIS" all_keywords) by (vm_compute; tauto).
  split; [|split; [|split; [|split]]].
  - intros x s.
    split; [reflexivity|]. split; [reflexivity|].
    split; [reflexivity|]. split; [reflexivity|].
    exact (W1 x s eq_refl eq_refl).
  - intros C p T.
    assert (H1 : forall q, In q [ $"We value integrity." ] ->
                           occurs_in q C = false).
    { intros q [<-|[]]. reflexivity. }
    assert (Hk : forall kw, In kw all_keywords -> occurs_in T kw = false).
    { apply Forall_forall. repeat (constructor; [reflexivity|]).
      constructor. }
    split; [reflexivity|]. split; [reflexivity|]. split; [reflexivity|].
    split; [exact H1|]. split; [reflexivity|]. split; [exact Hk|].
    exact (W2 C T [ $"We value integrity." ] p [] eq_refl eq_refl eq_refl
              H1 eq_refl Hk).
  - intros C kw T.
    assert (Hk : forall k, In k all_keywords -> k <> kw ->
                           occurs_in T k = false).
    { assert (F : Forall (fun k => k <> kw -> occurs_in T k = false)
                         all_keywords).
      { repeat (constructor;
                [intros H;
                 first [reflexivity | exfalso; apply H; reflexivity]|]).
        constructor. }
      rewrite Forall_forall in F. exact F. }
    assert (Hc : forall q, In q (split_nn T) -> occurs_in q C = false).
    { intros q [<-|[<-|[]]]; reflexivity. }
    split; [reflexivity|]. split; [reflexivity|]. split; [exact Hmis|].
    split; [exact Hk|]. split; [exact Hc|].
    exact (W3 C T kw eq_refl eq_refl Hmis Hk Hc).
  - split; [exact Hmis|]. split; [reflexivity|].
    exact (W4 $"MIS" $"Acme" Hmis eq_refl).
  - assert (Hk : forall kw, In kw all_keywords ->
                            occurs_in $"We value integrity." kw = false).
    { apply Forall_forall. repeat (constructor; [reflexivity|]).
      constructor. }
    split; [reflexivity|]. split; [exact Hk|].
    exact (W5 $"We value integrity." $"Acme" eq_refl Hk).
Defined.
